(** * YAR (Yet Another Raider): the game-state update loop of src/yar/main.c

    The C program keeps one [GameState] that the free functions [InitGame],
    [UpdatePlayer], [FireBullet], [UpdateBullets], [UpdateEnemies] and
    [CheckCollisions] mutate in place.  Here every function takes the state
    and returns the new one.  The C [float] is IEEE-754 binary32, modelled
    by the Standard Library's executable [spec_float] operations at
    precision 24 and maximal exponent 128, one rounding per C operation.
    The C [int] score is a 32-bit integer whose overflow wraps.  The raylib
    calls that read the outside world (keys, mouse, frame time, random
    numbers) are fields of an [Input] record and a stream of raw random
    draws. *)

From Stdlib Require Import ZArith Lia Bool String.
From Stdlib Require Import Floats.SpecFloat.
From stdpp Require Import base list.

Local Open Scope Z_scope.

(** ** binary32 arithmetic *)

Definition float := spec_float.

Definition prec : Z := 24.
Definition emax : Z := 128.

Definition fadd : float -> float -> float := SFadd prec emax.
Definition fsub : float -> float -> float := SFsub prec emax.
Definition fmul : float -> float -> float := SFmul prec emax.
Definition fdiv : float -> float -> float := SFdiv prec emax.
Definition sqrtf : float -> float := SFsqrt prec emax.

(** C's [a < b], [a <= b] and [a != b] on floats; every comparison with a
    NaN is false, so [!=] with a NaN is true. *)
Definition flt (a b : float) : bool := SFltb a b.
Definition fle (a b : float) : bool := SFleb a b.
Definition fne (a b : float) : bool := negb (SFeqb a b).

(** The implicit conversion of a C [int] to [float] (round to nearest). *)
Definition of_int (n : Z) : float := binary_normalize prec emax n 0 false.

(** The literal [0.707f]: the binary32 number nearest to 707/1000. *)
Definition lit_0_707 : float := S754_finite false 11861492 (-24).

(** ** The 32-bit [int] of the score *)

Definition INT_MAX : Z := 2147483647.
Definition wrap_int (z : Z) : Z := (z + 2 ^ 31) mod 2 ^ 32 - 2 ^ 31.

(** ** Constants of main.c *)

Definition SCREEN_WIDTH : Z := 800.
Definition SCREEN_HEIGHT : Z := 600.
Definition PLAYER_SPEED : float := of_int 200.
Definition BULLET_SPEED : float := of_int 400.
Definition ENEMY_SPEED : float := of_int 100.
Definition MAX_BULLETS : nat := 20.
Definition MAX_ENEMIES : nat := 10.

(** ** Data model *)

Record Vector2 := mkVector2 { x : float; y : float }.

(** raylib's [Color]: four bytes r, g, b, a. *)
Record Color := mkColor { cr : Z; cg : Z; cb : Z; ca : Z }.

Definition BLUE : Color := mkColor 0 121 241 255.
Definition YELLOW : Color := mkColor 253 249 0 255.
Definition RED : Color := mkColor 230 41 55 255.

Record GameObject := mkGameObject {
  position : Vector2;
  velocity : Vector2;
  radius : float;
  active : bool;
  color : Color
}.

Record GameState := mkGameState {
  player : GameObject;
  bullets : list GameObject;
  enemies : list GameObject;
  score : Z;
  gameOver : bool
}.

(** The arrays of the C struct have a fixed size. *)
Definition well_formed (game : GameState) : Prop :=
  length (bullets game) = MAX_BULLETS /\ length (enemies game) = MAX_ENEMIES.

(** Field assignments. *)
Definition set_x (v : float) (p : Vector2) : Vector2 := mkVector2 v (y p).
Definition set_y (v : float) (p : Vector2) : Vector2 := mkVector2 (x p) v.

Definition set_position (v : Vector2) (o : GameObject) : GameObject :=
  mkGameObject v (velocity o) (radius o) (active o) (color o).
Definition set_velocity (v : Vector2) (o : GameObject) : GameObject :=
  mkGameObject (position o) v (radius o) (active o) (color o).
Definition set_radius (v : float) (o : GameObject) : GameObject :=
  mkGameObject (position o) (velocity o) v (active o) (color o).
Definition set_active (v : bool) (o : GameObject) : GameObject :=
  mkGameObject (position o) (velocity o) (radius o) v (color o).
Definition set_color (v : Color) (o : GameObject) : GameObject :=
  mkGameObject (position o) (velocity o) (radius o) (active o) v.

Definition set_player (v : GameObject) (g : GameState) : GameState :=
  mkGameState v (bullets g) (enemies g) (score g) (gameOver g).
Definition set_bullets (v : list GameObject) (g : GameState) : GameState :=
  mkGameState (player g) v (enemies g) (score g) (gameOver g).
Definition set_enemies (v : list GameObject) (g : GameState) : GameState :=
  mkGameState (player g) (bullets g) v (score g) (gameOver g).
Definition set_score (v : Z) (g : GameState) : GameState :=
  mkGameState (player g) (bullets g) (enemies g) v (gameOver g).
Definition set_gameOver (v : bool) (g : GameState) : GameState :=
  mkGameState (player g) (bullets g) (enemies g) (score g) v.

(** [game->bullets[i].f = ...] and [game->enemies[j].f = ...]. *)
Definition upd_bullet (i : nat) (f : GameObject -> GameObject)
    (g : GameState) : GameState :=
  set_bullets (alter f i (bullets g)) g.
Definition upd_enemy (j : nat) (f : GameObject -> GameObject)
    (g : GameState) : GameState :=
  set_enemies (alter f j (enemies g)) g.
Definition upd_player (f : GameObject -> GameObject) (g : GameState)
    : GameState :=
  set_player (f (player g)) g.

(** [for (int i = start; i < start + n; i++) body]. *)
Fixpoint for_up {St : Type} (body : nat -> St -> St) (n start : nat)
    (s : St) : St :=
  match n with
  | O => s
  | S n' => for_up body n' (S start) (body start s)
  end.

(** ** The outside world *)

Inductive KeyboardKey :=
  | KEY_W | KEY_UP | KEY_S | KEY_DOWN | KEY_A | KEY_LEFT | KEY_D | KEY_RIGHT
  | KEY_R | KEY_ESCAPE.

(** What raylib reports during one frame. *)
Record Input := mkInput {
  IsKeyDown : KeyboardKey -> bool;
  IsKeyPressed : KeyboardKey -> bool;
  IsMouseButtonPressed : bool;      (* MOUSE_BUTTON_LEFT *)
  GetMousePosition : Vector2;
  GetFrameTime : float;
  WindowShouldClose : bool
}.

(** The raw draws of the generator behind [GetRandomValue], as a stream. *)
Definition Rand := nat -> Z.

(** raylib's [GetRandomValue(min, max)]: a value of the inclusive range,
    here the next raw draw reduced modulo the size of the range. *)
Definition GetRandomValue (min max : Z) (r : Rand) : Z * Rand :=
  (r O mod (Z.abs (max - min) + 1) + Z.min min max, fun n => r (S n)).

(** ** InitGame (main.c 28-57) *)

Definition InitGame (game : GameState) (r : Rand) : GameState * Rand :=
  let game := upd_player (set_position
    (mkVector2 (of_int (SCREEN_WIDTH ÷ 2)) (of_int (SCREEN_HEIGHT ÷ 2)))) game in
  let game := upd_player (set_velocity (mkVector2 (of_int 0) (of_int 0))) game in
  let game := upd_player (set_radius (of_int 20)) game in
  let game := upd_player (set_active true) game in
  let game := upd_player (set_color BLUE) game in
  let game := for_up (fun i game =>
    let game := upd_bullet i (set_active false) game in
    let game := upd_bullet i (set_radius (of_int 5)) game in
    upd_bullet i (set_color YELLOW) game) MAX_BULLETS 0 game in
  let '(game, r) := for_up (fun i '(game, r) =>
    let '(rx, r) := GetRandomValue 0 SCREEN_WIDTH r in
    let '(ry, r) := GetRandomValue 0 SCREEN_HEIGHT r in
    let game := upd_enemy i (set_position (mkVector2 (of_int rx) (of_int ry))) game in
    let game := upd_enemy i (set_velocity (mkVector2 (of_int 0) (of_int 0))) game in
    let game := upd_enemy i (set_radius (of_int 15)) game in
    let game := upd_enemy i (set_active true) game in
    (upd_enemy i (set_color RED) game, r)) MAX_ENEMIES 0 (game, r) in
  let game := set_score 0 game in
  (set_gameOver false game, r).

(** ** UpdatePlayer (main.c 59-86) *)

(** The movement vector read from the held keys (main.c 60-65). *)
Definition read_movement (inp : Input) : Vector2 :=
  let movement := mkVector2 (of_int 0) (of_int 0) in
  let movement := if IsKeyDown inp KEY_W || IsKeyDown inp KEY_UP
    then set_y (fsub (y movement) (of_int 1)) movement else movement in
  let movement := if IsKeyDown inp KEY_S || IsKeyDown inp KEY_DOWN
    then set_y (fadd (y movement) (of_int 1)) movement else movement in
  let movement := if IsKeyDown inp KEY_A || IsKeyDown inp KEY_LEFT
    then set_x (fsub (x movement) (of_int 1)) movement else movement in
  if IsKeyDown inp KEY_D || IsKeyDown inp KEY_RIGHT
  then set_x (fadd (x movement) (of_int 1)) movement else movement.

(** Normalize diagonal movement (main.c 67-71). *)
Definition normalize_diagonal (movement : Vector2) : Vector2 :=
  if fne (x movement) (of_int 0) && fne (y movement) (of_int 0)
  then let movement := set_x (fmul (x movement) lit_0_707) movement in
       set_y (fmul (y movement) lit_0_707) movement
  else movement.

(** Update position (main.c 73-75). *)
Definition move_player (movement : Vector2) (deltaTime : float)
    (pos : Vector2) : Vector2 :=
  let pos := set_x (fadd (x pos) (fmul (fmul (x movement) PLAYER_SPEED) deltaTime)) pos in
  set_y (fadd (y pos) (fmul (fmul (y movement) PLAYER_SPEED) deltaTime)) pos.

(** Keep player on screen (main.c 77-85): four tests in sequence, each on
    the position the previous one left. *)
Definition keep_on_screen (rad : float) (pos : Vector2) : Vector2 :=
  let pos := if flt (x pos) rad then set_x rad pos else pos in
  let pos := if flt (fsub (of_int SCREEN_WIDTH) rad) (x pos)
    then set_x (fsub (of_int SCREEN_WIDTH) rad) pos else pos in
  let pos := if flt (y pos) rad then set_y rad pos else pos in
  if flt (fsub (of_int SCREEN_HEIGHT) rad) (y pos)
  then set_y (fsub (of_int SCREEN_HEIGHT) rad) pos else pos.

Definition UpdatePlayer (inp : Input) (game : GameState) (deltaTime : float)
    : GameState :=
  let movement := normalize_diagonal (read_movement inp) in
  let game := upd_player (fun p =>
    set_position (move_player movement deltaTime (position p)) p) game in
  upd_player (fun p =>
    set_position (keep_on_screen (radius p) (position p)) p) game.

(** ** FireBullet (main.c 88-111) *)

(** The direction from [from] to [target], divided by its length when the
    length is positive (main.c 90-99 and 132-141). *)
Definition direction_to (target from : Vector2) : Vector2 :=
  let direction := mkVector2 (fsub (x target) (x from)) (fsub (y target) (y from)) in
  let length := sqrtf (fadd (fmul (x direction) (x direction))
                            (fmul (y direction) (y direction))) in
  if flt (of_int 0) length
  then let direction := set_x (fdiv (x direction) length) direction in
       set_y (fdiv (y direction) length) direction
  else direction.

(** The scan for an inactive bullet, from index [i], [n] slots left; the
    [break] is the branch that does not recurse. *)
Fixpoint FireBullet_scan (direction : Vector2) (n i : nat) (game : GameState)
    : GameState :=
  match n with
  | O => game
  | S n' =>
    match bullets game !! i with
    | Some b =>
      if negb (active b) then
        let game := upd_bullet i (set_position (position (player game))) game in
        let game := upd_bullet i (fun b =>
          set_velocity (set_x (fmul (x direction) BULLET_SPEED) (velocity b)) b) game in
        let game := upd_bullet i (fun b =>
          set_velocity (set_y (fmul (y direction) BULLET_SPEED) (velocity b)) b) game in
        upd_bullet i (set_active true) game
      else FireBullet_scan direction n' (S i) game
    | None => FireBullet_scan direction n' (S i) game
    end
  end.

Definition FireBullet (inp : Input) (game : GameState) : GameState :=
  let mousePos := GetMousePosition inp in
  let direction := direction_to mousePos (position (player game)) in
  FireBullet_scan direction MAX_BULLETS 0 game.

(** ** UpdateBullets (main.c 113-126) *)

Definition off_screen (p : Vector2) : bool :=
  flt (x p) (of_int 0) || flt (of_int SCREEN_WIDTH) (x p) ||
  flt (y p) (of_int 0) || flt (of_int SCREEN_HEIGHT) (y p).

Definition UpdateBullets_body (deltaTime : float) (i : nat) (game : GameState)
    : GameState :=
  match bullets game !! i with
  | Some b =>
    if active b then
      let game := upd_bullet i (fun b => set_position
        (set_x (fadd (x (position b)) (fmul (x (velocity b)) deltaTime)) (position b)) b) game in
      let game := upd_bullet i (fun b => set_position
        (set_y (fadd (y (position b)) (fmul (y (velocity b)) deltaTime)) (position b)) b) game in
      (* Deactivate if off screen *)
      match bullets game !! i with
      | Some b => if off_screen (position b)
                  then upd_bullet i (set_active false) game else game
      | None => game
      end
    else game
  | None => game
  end.

Definition UpdateBullets (game : GameState) (deltaTime : float) : GameState :=
  for_up (UpdateBullets_body deltaTime) MAX_BULLETS 0 game.

(** ** UpdateEnemies (main.c 128-147) *)

Definition UpdateEnemies_body (deltaTime : float) (i : nat) (game : GameState)
    : GameState :=
  match enemies game !! i with
  | Some e =>
    if active e then
      (* Move towards player *)
      let direction := direction_to (position (player game)) (position e) in
      let game := upd_enemy i (fun e => set_position
        (set_x (fadd (x (position e)) (fmul (fmul (x direction) ENEMY_SPEED) deltaTime))
               (position e)) e) game in
      upd_enemy i (fun e => set_position
        (set_y (fadd (y (position e)) (fmul (fmul (y direction) ENEMY_SPEED) deltaTime))
               (position e)) e) game
    else game
  | None => game
  end.

Definition UpdateEnemies (game : GameState) (deltaTime : float) : GameState :=
  for_up (UpdateEnemies_body deltaTime) MAX_ENEMIES 0 game.

(** ** CheckCollisions (main.c 149-205) *)

(** [sqrtf] of the sum of the squared coordinate differences. *)
Definition distance (a b : Vector2) : float :=
  sqrtf (fadd (fmul (fsub (x a) (x b)) (fsub (x a) (x b)))
              (fmul (fsub (y a) (y b)) (fsub (y a) (y b)))).

(** The [switch (edge)] of main.c 169-182; it has no default case. *)
Definition respawn_position (edge : Z) (old : Vector2) (r : Rand)
    : Vector2 * Rand :=
  match edge with
  | 0 => (* Top *)
    let '(v, r) := GetRandomValue 0 SCREEN_WIDTH r in
    (mkVector2 (of_int v) (of_int (-50)), r)
  | 1 => (* Right *)
    let '(v, r) := GetRandomValue 0 SCREEN_HEIGHT r in
    (mkVector2 (of_int (SCREEN_WIDTH + 50)) (of_int v), r)
  | 2 => (* Bottom *)
    let '(v, r) := GetRandomValue 0 SCREEN_WIDTH r in
    (mkVector2 (of_int v) (of_int (SCREEN_HEIGHT + 50)), r)
  | 3 => (* Left *)
    let '(v, r) := GetRandomValue 0 SCREEN_HEIGHT r in
    (mkVector2 (of_int (-50)) (of_int v), r)
  | _ => (old, r)
  end.

(** The test of main.c 154-162 for bullet [i] and enemy [j]: the enemy is
    active and the two circles overlap.  The bullet's own flag is not read
    here: the source tests it once, before the loop over the enemies. *)
Definition hit_test (i j : nat) (game : GameState) : bool :=
  match bullets game !! i, enemies game !! j with
  | Some b, Some e =>
    active e &&
    flt (distance (position b) (position e)) (fadd (radius b) (radius e))
  | _, _ => false
  end.

(** The body of the [if] at main.c 163-183. *)
Definition on_hit (i j : nat) (st : GameState * Rand) : GameState * Rand :=
  let '(game, r) := st in
  let game := upd_bullet i (set_active false) game in
  let game := upd_enemy j (set_active false) game in
  let game := set_score (wrap_int (score game + 10)) game in
  (* Respawn enemy at random edge *)
  let '(edge, r) := GetRandomValue 0 3 r in
  let '(game, r) :=
    match enemies game !! j with
    | Some e =>
      let '(p, r) := respawn_position edge (position e) r in
      (upd_enemy j (set_position p) game, r)
    | None => (game, r)
    end in
  (upd_enemy j (set_active true) game, r).

Definition enemy_body (i j : nat) (st : GameState * Rand)
    : GameState * Rand :=
  if hit_test i j (fst st) then on_hit i j st else st.

Definition bullet_body (i : nat) (st : GameState * Rand) : GameState * Rand :=
  match bullets (fst st) !! i with
  | Some b => if active b then for_up (enemy_body i) MAX_ENEMIES 0 st else st
  | None => st
  end.

Definition player_body (i : nat) (game : GameState) : GameState :=
  match enemies game !! i with
  | Some e =>
    if active e &&
       flt (distance (position (player game)) (position e))
           (fadd (radius (player game)) (radius e))
    then set_gameOver true game else game
  | None => game
  end.

Definition CheckCollisions (game : GameState) (r : Rand) : GameState * Rand :=
  (* Bullet-Enemy collisions *)
  let '(game, r) := for_up bullet_body MAX_BULLETS 0 (game, r) in
  (* Player-Enemy collisions *)
  (for_up player_body MAX_ENEMIES 0 game, r).

(** The hits of one call, in the order they happen: the pairs (bullet,
    enemy) for which the test of main.c 162 succeeds.  These follow the
    loops of [CheckCollisions] and record where [on_hit] runs. *)
Fixpoint enemy_hits (i n j : nat) (st : GameState * Rand)
    : list (nat * nat) :=
  match n with
  | O => []
  | S n' =>
    if hit_test i j (fst st)
    then (i, j) :: enemy_hits i n' (S j) (on_hit i j st)
    else enemy_hits i n' (S j) st
  end.

Definition bullet_hits (i : nat) (st : GameState * Rand) : list (nat * nat) :=
  match bullets (fst st) !! i with
  | Some b => if active b then enemy_hits i MAX_ENEMIES 0 st else []
  | None => []
  end.

Fixpoint collision_hits (n i : nat) (st : GameState * Rand)
    : list (nat * nat) :=
  match n with
  | O => []
  | S n' => bullet_hits i st ++ collision_hits n' (S i) (bullet_body i st)
  end.

Definition CheckCollisions_hits (game : GameState) (r : Rand)
    : list (nat * nat) :=
  collision_hits MAX_BULLETS 0 (game, r).

(** ** The frame loop of main (main.c 244-277) *)

(** One iteration of the [while] loop, up to the test of the quit key;
    [DrawGame] only reads the state. *)
Definition frame (inp : Input) (st : GameState * Rand) : GameState * Rand :=
  let '(game, r) := st in
  let deltaTime := GetFrameTime inp in
  if negb (gameOver game) then
    let game := UpdatePlayer inp game deltaTime in
    let game := if IsMouseButtonPressed inp then FireBullet inp game else game in
    let game := UpdateBullets game deltaTime in
    let game := UpdateEnemies game deltaTime in
    CheckCollisions game r
  else
    if IsKeyPressed inp KEY_R then InitGame game r else (game, r).

(** The functions one iteration calls, in order. *)
Inductive Call :=
  | CallInitGame | CallUpdatePlayer | CallFireBullet | CallUpdateBullets
  | CallUpdateEnemies | CallCheckCollisions.

Definition frame_calls (inp : Input) (st : GameState * Rand) : list Call :=
  if negb (gameOver (fst st)) then
    [CallUpdatePlayer] ++
    (if IsMouseButtonPressed inp then [CallFireBullet] else []) ++
    [CallUpdateBullets; CallUpdateEnemies; CallCheckCollisions]
  else
    if IsKeyPressed inp KEY_R then [CallInitGame] else [].

Definition run_call (inp : Input) (st : GameState * Rand) (c : Call)
    : GameState * Rand :=
  let '(game, r) := st in
  match c with
  | CallInitGame => InitGame game r
  | CallUpdatePlayer => (UpdatePlayer inp game (GetFrameTime inp), r)
  | CallFireBullet => (FireBullet inp game, r)
  | CallUpdateBullets => (UpdateBullets game (GetFrameTime inp), r)
  | CallUpdateEnemies => (UpdateEnemies game (GetFrameTime inp), r)
  | CallCheckCollisions => CheckCollisions game r
  end.

Definition is_gameplay (c : Call) : bool :=
  match c with CallInitGame => false | _ => true end.

(** The loop over the frames the window delivers: it stops when the window
    should close, and after the update of a frame whose quit key is
    pressed. *)
Fixpoint main_loop (inputs : list Input) (st : GameState * Rand)
    : GameState * Rand :=
  match inputs with
  | [] => st
  | inp :: rest =>
    if WindowShouldClose inp then st
    else let st := frame inp st in
         if IsKeyPressed inp KEY_ESCAPE then st else main_loop rest st
  end.

(** [main]: the state variable starts with whatever the stack holds, then
    [InitGame] and the loop. *)
Definition main (stack : GameState) (r : Rand) (inputs : list Input)
    : GameState * Rand :=
  main_loop inputs (InitGame stack r).

(** ** DrawGame (main.c 207-242)

    The calls [DrawGame] makes to raylib, in order.  It reads the state and
    does not change it. *)

(** raylib's colours used by [DrawGame]. *)
Definition BLACK : Color := mkColor 0 0 0 255.

(** White. *)
Definition WHITE : Color := mkColor 255 255 255 255.

(** Gray. *)
Definition GRAY : Color := mkColor 130 130 130 255.

(** The text handed to [DrawText]: a literal, or the value of
    [TextFormat(fmt, arg)], kept as its format and argument. *)
Inductive Text :=
  | Literal (s : string)
  | TextFormat (fmt : string) (arg : Z).

Inductive DrawCall :=
  | BeginDrawing
  | ClearBackground (c : Color)
  | DrawCircleV (center : Vector2) (rad : float) (c : Color)
  | DrawText (text : Text) (posX posY fontSize : Z) (c : Color)
  | EndDrawing.

(** [for (i = 0; i < n; i++) if (objs[i].active) DrawCircleV(...)]. *)
Definition draw_active (objs : list GameObject) (n : nat)
    (out : list DrawCall) : list DrawCall :=
  for_up (fun i out =>
    match objs !! i with
    | Some o =>
      if active o
      then out ++ [DrawCircleV (position o) (radius o) (color o)]
      else out
    | None => out
    end) n 0 out.

Definition DrawGame (game : GameState) : list DrawCall :=
  let out := [BeginDrawing] in
  let out := out ++ [ClearBackground BLACK] in
  let out :=
    if negb (gameOver game) then
      (* Draw player *)
      let out := out ++ [DrawCircleV (position (player game))
                           (radius (player game)) (color (player game))] in
      (* Draw bullets *)
      let out := draw_active (bullets game) MAX_BULLETS out in
      (* Draw enemies *)
      let out := draw_active (enemies game) MAX_ENEMIES out in
      (* Draw UI *)
      out ++ [DrawText (TextFormat "Score: %d" (score game)) 10 10 20 WHITE;
              DrawText (Literal "WASD/Arrows: Move") 10 (SCREEN_HEIGHT - 60) 16 GRAY;
              DrawText (Literal "Mouse: Aim & Click to Shoot") 10 (SCREEN_HEIGHT - 40) 16 GRAY;
              DrawText (Literal "ESC: Quit") 10 (SCREEN_HEIGHT - 20) 16 GRAY]
    else
      (* Game over screen *)
      out ++ [DrawText (Literal "GAME OVER")
                (SCREEN_WIDTH ÷ 2 - 100) (SCREEN_HEIGHT ÷ 2 - 50) 40 RED;
              DrawText (TextFormat "Final Score: %d" (score game))
                (SCREEN_WIDTH ÷ 2 - 80) (SCREEN_HEIGHT ÷ 2) 20 WHITE;
              DrawText (Literal "Press R to restart or ESC to quit")
                (SCREEN_WIDTH ÷ 2 - 140) (SCREEN_HEIGHT ÷ 2 + 40) 16 GRAY] in
  out ++ [EndDrawing].

(** * Specification vocabulary *)

(** The smallest value of the 32-bit [int]. *)
Definition INT_MIN : Z := - 2147483648.

(** Not a number. *)
Definition is_nan (f : float) : bool :=
  match f with S754_nan => true | _ => false end.

(** Zero or a finite non-zero number: neither NaN nor an infinity. *)
Definition is_finite (f : float) : bool :=
  match f with S754_zero _ | S754_finite _ _ _ => true | _ => false end.

(** The exponent of the smallest positive binary32 number, [3 - emax - prec]. *)
Definition emin32 : Z := -149.

(** A float with a full mantissa whose exponent is at least [t], or an
    infinity: its magnitude is at least [2 ^ (t + prec - 1)]. *)
Definition at_least (t : Z) (f : float) : Prop :=
  (exists s, f = S754_infinity s) \/
  exists s m e, f = S754_finite s m e /\
                Z.pos (digits2_pos m) = prec /\ t <= e.

(** The sign bit of a float that is not a NaN. *)
Definition sign_of (f : float) : option bool :=
  match f with
  | S754_zero s | S754_infinity s | S754_finite s _ _ => Some s
  | S754_nan => None
  end.

(** A positive float of magnitude at least [2 ^ (t + prec - 1)]. *)
Definition big (t : Z) (f : float) : Prop :=
  at_least t f /\ sign_of f = Some false.

(** A binary32 number: a canonical mantissa and an exponent in range. *)
Definition valid (f : float) : Prop := valid_binary prec emax f = true.

(** The enemy pool has its ten slots and every slot is active. *)
Definition all_enemies_active (game : GameState) : Prop :=
  length (enemies game) = MAX_ENEMIES /\
  Forall (fun e => active e = true) (enemies game).

(** A sequence of calls, each with the input of its frame, run from [st]. *)
Definition run_calls (cs : list (Input * Call)) (st : GameState * Rand)
    : GameState * Rand :=
  foldl (fun st c => run_call (fst c) st (snd c)) st cs.

(** One call of a run, and with it the hits counted since the last
    [InitGame]. *)
Definition run_kills_step (acc : (GameState * Rand) * Z) (c : Input * Call)
    : (GameState * Rand) * Z :=
  let '(st, kills) := acc in
  (run_call (fst c) st (snd c),
   match snd c with
   | CallInitGame => 0
   | CallCheckCollisions =>
     kills + Z.of_nat (length (CheckCollisions_hits (fst st) (snd st)))
   | _ => kills
   end).

(** The number of hits of a run since its last [InitGame]. *)
Definition run_kills (cs : list (Input * Call)) (st : GameState * Rand) : Z :=
  snd (foldl run_kills_step (st, 0) cs).

(** A call other than [InitGame]. *)
Definition is_gameplay_call (c : Input * Call) : Prop := is_gameplay (snd c) = true.

(** The frame time of a call is a finite number, as [GetFrameTime] returns. *)
Definition finite_frame_time (c : Input * Call) : Prop :=
  is_finite (GetFrameTime (fst c)) = true.

(** The calls that are neither a collision check nor a reset. *)
Definition no_collision_or_reset (c : Call) : bool :=
  match c with CallInitGame | CallCheckCollisions => false | _ => true end.

(** The bullet [FireBullet] writes into a free slot that held [b]. *)
Definition fired_bullet (inp : Input) (game : GameState) (b : GameObject)
    : GameObject :=
  let direction :=
    direction_to (GetMousePosition inp) (position (player game)) in
  mkGameObject (position (player game))
    (mkVector2 (fmul (x direction) BULLET_SPEED)
               (fmul (y direction) BULLET_SPEED))
    (radius b) true (color b).

(** A bullet at rest at position [p], in a slot that held [b]. *)
Definition resting_bullet (p : Vector2) (b : GameObject) : GameObject :=
  mkGameObject p (mkVector2 (S754_zero false) (S754_zero false))
               (radius b) true (color b).

(** What [UpdateBullets] does to one slot. *)
Definition advance_bullet (dt : float) (b : GameObject) : GameObject :=
  if active b then
    let p := mkVector2 (fadd (x (position b)) (fmul (x (velocity b)) dt))
                       (fadd (y (position b)) (fmul (y (velocity b)) dt)) in
    mkGameObject p (velocity b) (radius b) (negb (off_screen p)) (color b)
  else b.

(** What [UpdateEnemies] does to one slot, the player being at [target]. *)
Definition chase (target : Vector2) (dt : float) (e : GameObject) : GameObject :=
  if active e then
    let d := direction_to target (position e) in
    set_position
      (mkVector2 (fadd (x (position e)) (fmul (fmul (x d) ENEMY_SPEED) dt))
                 (fadd (y (position e)) (fmul (fmul (y d) ENEMY_SPEED) dt))) e
  else e.

(** The bullet slot [InitGame] leaves: flag, radius and colour are set,
    position and velocity are not written. *)
Definition reset_bullet (b : GameObject) : GameObject :=
  mkGameObject (position b) (velocity b) (of_int 5) false YELLOW.

(** The enemy [InitGame] makes from two raw draws. *)
Definition spawned_enemy (a b : Z) : GameObject :=
  mkGameObject (mkVector2 (of_int (a mod 801)) (of_int (b mod 601)))
               (mkVector2 (of_int 0) (of_int 0)) (of_int 15) true RED.

(** The player [InitGame] leaves: the centre of the screen, radius 20. *)
Definition initial_player : GameObject :=
  mkGameObject (mkVector2 (of_int 400) (of_int 300))
               (mkVector2 (of_int 0) (of_int 0)) (of_int 20) true BLUE.

(** The respawn point on edge 0 (top), 1 (right), 2 (bottom) or 3 (left), at
    coordinate [k] along the edge. *)
Definition edge_point (edge k : Z) : Vector2 :=
  match edge with
  | 0 => mkVector2 (of_int k) (of_int (-50))
  | 1 => mkVector2 (of_int 850) (of_int k)
  | 2 => mkVector2 (of_int k) (of_int 650)
  | _ => mkVector2 (of_int (-50)) (of_int k)
  end.

(** The length of the side an edge lies along. *)
Definition edge_extent (edge : Z) : Z :=
  if Z.even edge then SCREEN_WIDTH else SCREEN_HEIGHT.

(** The four bands an enemy respawns in: 50 beyond an edge, at a whole
    coordinate along it. *)
Definition in_edge_band (p : Vector2) : Prop :=
  exists k,
    (0 <= k <= 800 /\ p = mkVector2 (of_int k) (of_int (-50))) \/
    (0 <= k <= 600 /\ p = mkVector2 (of_int 850) (of_int k)) \/
    (0 <= k <= 800 /\ p = mkVector2 (of_int k) (of_int 650)) \/
    (0 <= k <= 600 /\ p = mkVector2 (of_int (-50)) (of_int k)).

(** The enemy [e] after a hit, the next two raw draws being [r 0] and [r 1]. *)
Definition respawned (r : Rand) (e : GameObject) : GameObject :=
  let edge := r 0%nat mod 4 in
  mkGameObject (edge_point edge (r 1%nat mod (edge_extent edge + 1)))
               (velocity e) (radius e) true (color e).

(** Enemy [j] is active and sits in one of the four bands. *)
Definition banded (j : nat) (game : GameState) : Prop :=
  exists e, enemies game !! j = Some e /\ active e = true /\
            in_edge_band (position e).

(** Whether bullet [i] has a hit in the list. *)
Definition has_hit (i : nat) (hits : list (nat * nat)) : bool :=
  existsb (fun p => Nat.eqb (fst p) i) hits.

(** A bullet after [CheckCollisions]: deactivated when it hit. *)
Definition spent (hit : bool) (b : GameObject) : GameObject :=
  if hit then set_active false b else b.

(** The player's circle lies inside the screen. *)
Definition on_screen (p : GameObject) : Prop :=
  fle (radius p) (x (position p)) = true /\
  fle (x (position p)) (fsub (of_int SCREEN_WIDTH) (radius p)) = true /\
  fle (radius p) (y (position p)) = true /\
  fle (y (position p)) (fsub (of_int SCREEN_HEIGHT) (radius p)) = true.

(** The region the clamp of [UpdatePlayer] keeps a player of radius 20 in. *)
Definition in_clamped_field (p : Vector2) : Prop :=
  fle (of_int 20) (x p) = true /\ fle (x p) (of_int 780) = true /\
  fle (of_int 20) (y p) = true /\ fle (y p) (of_int 580) = true.

(** The player has the radius [InitGame] gives it and is on screen. *)
Definition player_ok (game : GameState) : Prop :=
  radius (player game) = of_int 20 /\ on_screen (player game).

(** The hypotheses on the player that the clamp of [UpdatePlayer] and
    [InitGame] establish. *)
Definition player_in_field (game : GameState) : Prop :=
  valid (x (position (player game))) /\ valid (y (position (player game))) /\
  in_clamped_field (position (player game)) /\
  radius (player game) = of_int 20.

(** The radius [InitGame] gives every enemy. *)
Definition enemy_radius_15 (e : GameObject) : Prop := radius e = of_int 15.

(** Up: W or the up arrow. *)
Definition held_up (inp : Input) : bool := IsKeyDown inp KEY_W || IsKeyDown inp KEY_UP.

(** Down: S or the down arrow. *)
Definition held_down (inp : Input) : bool := IsKeyDown inp KEY_S || IsKeyDown inp KEY_DOWN.

(** Left: A or the left arrow. *)
Definition held_left (inp : Input) : bool := IsKeyDown inp KEY_A || IsKeyDown inp KEY_LEFT.

(** Right: D or the right arrow. *)
Definition held_right (inp : Input) : bool := IsKeyDown inp KEY_D || IsKeyDown inp KEY_RIGHT.

(** None of the eight movement keys is held. *)
Definition no_direction_held (inp : Input) : Prop :=
  held_up inp = false /\ held_down inp = false /\
  held_left inp = false /\ held_right inp = false.

(** The constant the specification names for the diagonal scaling: the
    binary32 number nearest to 0.70710678. *)
Definition spec_lit_0_70710678 : float := S754_finite false 11863283 (-24).

(** The circle drawn for an object. *)
Definition circle_of (o : GameObject) : DrawCall :=
  DrawCircleV (position o) (radius o) (color o).

(** Whether a draw call is a [DrawCircleV]. *)
Definition is_circle (c : DrawCall) : bool :=
  match c with DrawCircleV _ _ _ => true | _ => false end.

(** * Concrete states and inputs *)

(** What the stack may hold before [InitGame]: here all zeroes. *)
Definition zero_object : GameObject :=
  mkGameObject (mkVector2 (of_int 0) (of_int 0))
               (mkVector2 (of_int 0) (of_int 0)) (of_int 0) false
               (mkColor 0 0 0 0).

(** A well-formed state of zeroes, for the memory [main] hands to [InitGame]. *)
Definition zero_stack : GameState :=
  mkGameState zero_object (replicate MAX_BULLETS zero_object)
              (replicate MAX_ENEMIES zero_object) 0 false.

(** A stream of raw draws. *)
Definition sample_rand : Rand := fun n => Z.of_nat n * 7919 + 13.

(** The state [InitGame] leaves. *)
Definition fresh_game : GameState :=
  Eval vm_compute in fst (InitGame zero_stack sample_rand).

(** One active bullet at (100,100) and two enemies on top of each other at
    (103,100), three units from the bullet. *)
Definition two_enemies_one_bullet : GameState :=
  Eval vm_compute in
  upd_enemy 1 (set_position (mkVector2 (of_int 103) (of_int 100)))
    (upd_enemy 0 (set_position (mkVector2 (of_int 103) (of_int 100)))
       (upd_bullet 0 (fun b => set_active true
          (set_position (mkVector2 (of_int 100) (of_int 100)) b)) fresh_game)).

(** The same with the score at the largest multiple of 10 an [int] holds. *)
Definition score_at_limit : GameState :=
  set_score 2147483640 two_enemies_one_bullet.

(** All twenty bullets in flight. *)
Definition full_pool : GameState :=
  set_bullets (map (set_active true) (bullets fresh_game)) fresh_game.

(** The fresh state with the game-over flag set. *)
Definition game_over_state : GameState := set_gameOver true fresh_game.

(** The fresh state with enemy 0 moved onto the player. *)
Definition enemy_on_player : GameState :=
  Eval vm_compute in
  upd_enemy 0 (set_position (mkVector2 (of_int 400) (of_int 300))) fresh_game.

(** Frame time 1/60 s, as binary32. *)
Definition sixtieth : float := S754_finite false 8947849 (-29).

(** No key held or pressed. *)
Definition no_key (k : KeyboardKey) : bool := false.

(** S and D, nothing else. *)
Definition keys_S_D (k : KeyboardKey) : bool :=
  match k with KEY_S | KEY_D => true | _ => false end.

(** No key held, the mouse on the player, the button pressed. *)
Definition click_on_player : Input :=
  mkInput no_key no_key true (mkVector2 (of_int 400) (of_int 300)) sixtieth false.

(** S and D held: down and right. *)
Definition hold_S_D : Input :=
  mkInput keys_S_D no_key false (mkVector2 (of_int 0) (of_int 0)) sixtieth false.

(** No key, no click. *)
Definition idle : Input :=
  mkInput no_key no_key false (mkVector2 (of_int 0) (of_int 0)) sixtieth false.

(** The restart key pressed. *)
Definition press_R : Input :=
  mkInput no_key (fun k => match k with KEY_R => true | _ => false end) false
          (mkVector2 (of_int 0) (of_int 0)) sixtieth false.

(** Evaluate the closed powers of two of the goal. *)
Ltac close_pow :=
  repeat match goal with
  | |- context [2 ^ ?k] =>
    let v := eval vm_compute in (2 ^ k) in progress change (2 ^ k) with v
  end.

(** * binary32: order and NaN *)

Lemma SFcompare_antisym (a b : float) :
  SFcompare b a = option_map CompOpp (SFcompare a b).
Proof.
  destruct a as [sa|sa| |sa ma ea], b as [sb|sb| |sb mb eb]; cbn;
    try reflexivity;
    try (destruct sa; reflexivity); try (destruct sb; reflexivity);
    try (destruct sa, sb; reflexivity).
  f_equal. change (Pos.compare_cont Eq) with Pos.compare.
  destruct sa, sb; try reflexivity;
    destruct (Z.compare_spec ea eb), (Z.compare_spec eb ea);
    try lia; try reflexivity;
    destruct (Pos.compare_spec ma mb), (Pos.compare_spec mb ma);
    try lia; reflexivity.
Qed.

Lemma SFcompare_None (a b : float) :
  SFcompare a b = None -> is_nan a = true \/ is_nan b = true.
Proof.
  destruct a, b; cbn; try discriminate; auto.
Qed.

Lemma flt_false_fle (a b : float) :
  is_nan a = false -> is_nan b = false -> flt a b = false -> fle b a = true.
Proof.
  unfold flt, fle, SFltb, SFleb. intros Ha Hb.
  rewrite (SFcompare_antisym a b).
  destruct (SFcompare a b) as [[]|] eqn:E; cbn; try congruence.
  apply SFcompare_None in E as [E|E]; congruence.
Qed.

Lemma fle_refl (a : float) : is_nan a = false -> fle a a = true.
Proof.
  unfold fle, SFleb. destruct a as [s|s| |s m e]; try discriminate; intros _; cbn.
  - reflexivity.
  - now destruct s.
  - rewrite Z.compare_refl, Pos.compare_cont_refl. now destruct s.
Qed.

Lemma fle_not_nan (a b : float) :
  fle a b = true -> is_nan a = false /\ is_nan b = false.
Proof.
  unfold fle, SFleb. destruct a, b; cbn; try discriminate; auto.
Qed.

Lemma fle_trans (a b c : float) :
  fle a b = true -> fle b c = true -> fle a c = true.
Proof.
  unfold fle, SFleb.
  destruct a as [sa|sa| |sa ma ea], b as [sb|sb| |sb mb eb],
           c as [sc|sc| |sc mc ec]; cbn; try discriminate; try reflexivity;
    try (destruct sa; try discriminate; try reflexivity;
         destruct sb; try discriminate; try reflexivity;
         destruct sc; try discriminate; reflexivity);
    try (destruct sa, sb; try discriminate; try reflexivity;
         destruct sc; try discriminate; reflexivity);
    try (destruct sa, sc; try discriminate; try reflexivity;
         destruct sb; try discriminate; reflexivity);
    try (destruct sb, sc; try discriminate; try reflexivity;
         destruct sa; try discriminate; reflexivity).
  all: change (Pos.compare_cont Eq) with Pos.compare.
  all: destruct sa, sb, sc; try discriminate; try reflexivity.
  all: destruct (Z.compare_spec ea eb), (Z.compare_spec eb ec),
         (Z.compare_spec ea ec); try discriminate; try reflexivity; try lia;
       destruct (Pos.compare_spec ma mb), (Pos.compare_spec mb mc),
         (Pos.compare_spec ma mc); cbn; try discriminate; try reflexivity; lia.
Qed.

Lemma fle_flt_false (a b : float) : fle a b = true -> flt b a = false.
Proof.
  unfold fle, flt, SFleb, SFltb. rewrite (SFcompare_antisym a b).
  destruct (SFcompare a b) as [[]|]; cbn; congruence.
Qed.

Lemma fle_is_finite (lo a hi : float) :
  is_finite lo = true -> is_finite hi = true ->
  fle lo a = true -> fle a hi = true -> is_finite a = true.
Proof.
  unfold fle, SFleb.
  destruct lo as [sl|sl| |sl ml el]; try discriminate;
  destruct hi as [sh|sh| |sh mh eh]; try discriminate;
  destruct a as [s|s| |s m e]; cbn; try reflexivity; try discriminate;
  destruct s; try discriminate;
  try (destruct sl; discriminate); try (destruct sh; discriminate).
Qed.

Lemma iter_pos_inv {A} (f : A -> A) (P : A -> Prop) :
  (forall a, P a -> P (f a)) -> forall p a, P a -> P (SpecFloat.iter_pos f p a).
Proof.
  intros Hf p. induction p as [p IH|p IH|]; intros a Ha; cbn; auto.
Qed.

Lemma shr_1_nonneg mrs : 0 <= shr_m mrs -> 0 <= shr_m (shr_1 mrs).
Proof.
  destruct mrs as [m r s]. cbn [shr_m].
  destruct m as [|p|p]; [cbn; lia| |lia].
  destruct p; cbn; lia.
Qed.

Lemma shr_fexp_nonneg m e l :
  0 <= m -> 0 <= shr_m (fst (shr_fexp prec emax m e l)).
Proof.
  intros Hm. unfold shr_fexp, shr.
  assert (H0 : 0 <= shr_m (shr_record_of_loc m l)).
  { destruct l as [|[]]; exact Hm. }
  destruct (fexp prec emax (Zdigits2 m + e) - e) as [|p|p]; cbn [fst]; auto.
  apply (iter_pos_inv shr_1 (fun r => 0 <= shr_m r)); auto using shr_1_nonneg.
Qed.

Lemma round_nearest_even_ge m l : m <= round_nearest_even m l.
Proof.
  destruct l as [|[]]; cbn; try lia. destruct (Z.even m); lia.
Qed.

Lemma binary_round_aux_cases s m e l :
  0 <= m ->
  binary_round_aux prec emax s m e l = S754_zero s \/
  binary_round_aux prec emax s m e l = S754_infinity s \/
  exists m' e', binary_round_aux prec emax s m e l = S754_finite s m' e'.
Proof.
  intros Hm. unfold binary_round_aux.
  pose proof (shr_fexp_nonneg m e l Hm) as H1.
  destruct (shr_fexp prec emax m e l) as [mrs' e']. cbn [fst] in H1.
  pose proof (round_nearest_even_ge (shr_m mrs') (loc_of_shr_record mrs')) as H2.
  pose proof (shr_fexp_nonneg (round_nearest_even (shr_m mrs') (loc_of_shr_record mrs'))
                e' loc_Exact ltac:(lia)) as H3.
  destruct (shr_fexp prec emax _ e' loc_Exact) as [mrs'' e'']. cbn [fst] in H3.
  destruct (shr_m mrs'') as [|p|p]; [auto| |lia].
  destruct (e'' <=? emax - prec); eauto.
Qed.

Lemma binary_round_cases s m e :
  binary_round prec emax s m e = S754_zero s \/
  binary_round prec emax s m e = S754_infinity s \/
  exists m' e', binary_round prec emax s m e = S754_finite s m' e'.
Proof.
  unfold binary_round.
  destruct (shl_align m e _) as [mz ez]. apply binary_round_aux_cases. lia.
Qed.

Lemma binary_normalize_not_nan m e sz :
  is_nan (binary_normalize prec emax m e sz) = false.
Proof.
  destruct m as [|p|p]; cbn [binary_normalize]; [reflexivity| |];
    destruct (binary_round_cases false p e) as [H|[H|(m'&e'&H)]];
    destruct (binary_round_cases true p e) as [H'|[H'|(m''&e''&H')]];
    rewrite ?H, ?H'; reflexivity.
Qed.

Lemma fmul_not_nan (a b : float) :
  is_finite a = true -> is_finite b = true -> is_nan (fmul a b) = false.
Proof.
  destruct a as [sa|sa| |sa ma ea]; try discriminate;
  destruct b as [sb|sb| |sb mb eb]; try discriminate; intros _ _;
    try reflexivity.
  unfold fmul, SFmul.
  destruct (binary_round_aux_cases (xorb sa sb) (Z.pos (ma * mb)) (ea + eb)
              loc_Exact ltac:(lia)) as [H|[H|(m'&e'&H)]]; rewrite H; reflexivity.
Qed.

Lemma fadd_not_nan (a b : float) :
  is_finite a = true -> is_nan b = false -> is_nan (fadd a b) = false.
Proof.
  destruct a as [sa|sa| |sa ma ea]; try discriminate;
  destruct b as [sb|sb| |sb mb eb]; try discriminate; intros _ _;
    try reflexivity; try (destruct sa, sb; reflexivity).
  unfold fadd, SFadd. apply binary_normalize_not_nan.
Qed.

Lemma fsub_not_nan (a b : float) :
  is_finite a = true -> is_finite b = true -> is_nan (fsub a b) = false.
Proof.
  destruct a as [sa|sa| |sa ma ea]; try discriminate;
  destruct b as [sb|sb| |sb mb eb]; try discriminate; intros _ _;
    try reflexivity; try (destruct sa, sb; reflexivity).
  unfold fsub, SFsub. apply binary_normalize_not_nan.
Qed.

Lemma fsub_diag (a : float) : is_finite a = true -> fsub a a = S754_zero false.
Proof.
  destruct a as [s|s| |s m e]; try discriminate; intros _.
  - now destruct s.
  - unfold fsub, SFsub. now rewrite Z.sub_diag.
Qed.

Lemma fmul_zero_l (a : float) :
  is_finite a = true -> exists s, fmul (S754_zero false) a = S754_zero s.
Proof.
  destruct a as [s|s| |s m e]; try discriminate; intros _; cbn; eauto.
Qed.

Lemma fadd_zero_r (a : float) s m e sz :
  a = S754_finite s m e -> fadd a (S754_zero sz) = a.
Proof. intros ->. reflexivity. Qed.

(** * binary32: digits and the exponent of a rounded result *)

Lemma digits2_pos_spec (p : positive) :
  2 ^ (Z.pos (digits2_pos p) - 1) <= Z.pos p < 2 ^ Z.pos (digits2_pos p).
Proof.
  induction p as [p IH|p IH|]; cbn [digits2_pos].
  - rewrite Pos2Z.inj_succ.
    replace (Z.succ (Z.pos (digits2_pos p)) - 1) with (Z.succ (Z.pos (digits2_pos p) - 1)) by lia.
    rewrite !Z.pow_succ_r by lia. lia.
  - rewrite Pos2Z.inj_succ.
    replace (Z.succ (Z.pos (digits2_pos p)) - 1) with (Z.succ (Z.pos (digits2_pos p) - 1)) by lia.
    rewrite !Z.pow_succ_r by lia. lia.
  - cbn. lia.
Qed.

Lemma digits2_pos_unique (p : positive) (k : Z) :
  2 ^ (k - 1) <= Z.pos p < 2 ^ k -> Z.pos (digits2_pos p) = k.
Proof.
  intros [Hlo Hhi]. pose proof (digits2_pos_spec p) as [Dlo Dhi].
  assert (0 < k).
  { destruct (Z.ltb_spec 0 k) as [|Hk]; [assumption|].
    rewrite Z.pow_neg_r in Hlo by lia.
    destruct (Z.eq_dec k 0) as [->|]; [cbn in Hhi; lia|].
    rewrite Z.pow_neg_r in Hhi by lia. lia. }
  assert (k - 1 < Z.pos (digits2_pos p)).
  { apply (Z.pow_lt_mono_r_iff 2); lia. }
  assert (Z.pos (digits2_pos p) - 1 < k).
  { apply (Z.pow_lt_mono_r_iff 2); lia. }
  lia.
Qed.

Lemma digits2_pos_ge (p : positive) (k : Z) :
  2 ^ k <= Z.pos p -> k + 1 <= Z.pos (digits2_pos p).
Proof.
  intros H. pose proof (digits2_pos_spec p) as [_ Dhi].
  destruct (Z.ltb_spec k 0); [lia|].
  assert (k < Z.pos (digits2_pos p)); [|lia].
  apply (Z.pow_lt_mono_r_iff 2); lia.
Qed.

Lemma shr_1_div mrs : 0 <= shr_m mrs -> shr_m (shr_1 mrs) = shr_m mrs / 2.
Proof.
  destruct mrs as [m r s]. cbn [shr_m]. intros Hm.
  destruct m as [|p|p]; [reflexivity| |lia].
  destruct p as [p|p|]; cbn [shr_1 shr_m].
  - apply (Z.div_unique _ 2 _ 1); lia.
  - apply (Z.div_unique _ 2 _ 0); lia.
  - reflexivity.
Qed.

Lemma iter_shr_1_div (p : positive) : forall mrs,
  0 <= shr_m mrs ->
  shr_m (SpecFloat.iter_pos shr_1 p mrs) = shr_m mrs / 2 ^ Z.pos p.
Proof.
  induction p as [p IH|p IH|]; intros mrs Hm; cbn [SpecFloat.iter_pos].
  - assert (H1 : 0 <= shr_m (shr_1 mrs)) by now apply shr_1_nonneg.
    assert (H2 : 0 <= shr_m (SpecFloat.iter_pos shr_1 p (shr_1 mrs))).
    { rewrite IH by assumption. apply Z.div_pos; lia. }
    rewrite IH, IH, shr_1_div by assumption.
    rewrite !Z.div_div by lia. f_equal.
    rewrite (Pos2Z.inj_xI p).
    replace (2 * Z.pos p + 1) with (1 + Z.pos p + Z.pos p) by lia.
    rewrite !Z.pow_add_r by lia. change (2 ^ 1) with 2. ring.
  - assert (H2 : 0 <= shr_m (SpecFloat.iter_pos shr_1 p mrs)).
    { rewrite IH by assumption. apply Z.div_pos; lia. }
    rewrite IH, IH by assumption.
    rewrite !Z.div_div by lia. f_equal.
    rewrite (Pos2Z.inj_xO p).
    replace (2 * Z.pos p) with (Z.pos p + Z.pos p) by lia.
    rewrite !Z.pow_add_r by lia. ring.
  - now apply shr_1_div.
Qed.

Lemma iter_xO_mul (d m : positive) :
  Z.pos (Pos.iter xO m d) = Z.pos m * 2 ^ Z.pos d.
Proof.
  induction d as [|d IH] using Pos.peano_ind.
  - cbn. lia.
  - rewrite Pos.iter_succ, (Pos2Z.inj_xO (Pos.iter xO m d)), IH, Pos2Z.inj_succ, Z.pow_succ_r by lia.
    lia.
Qed.

(** Dropping [n] low bits of a number of [d] digits leaves [d - n]. *)
Lemma div_pow2_digits (m : positive) (n : Z) :
  0 <= n < Z.pos (digits2_pos m) ->
  exists q, Z.pos m / 2 ^ n = Z.pos q /\
            Z.pos (digits2_pos q) = Z.pos (digits2_pos m) - n.
Proof.
  intros Hn. pose proof (digits2_pos_spec m) as [Dlo Dhi].
  set (d := Z.pos (digits2_pos m)) in *.
  assert (P : 0 < 2 ^ n) by (apply Z.pow_pos_nonneg; lia).
  assert (Hlo : 2 ^ (d - n - 1) <= Z.pos m / 2 ^ n).
  { apply Z.div_le_lower_bound; [exact P|].
    rewrite <- Z.pow_add_r by lia. now replace (n + (d - n - 1)) with (d - 1) by lia. }
  assert (Hhi : Z.pos m / 2 ^ n < 2 ^ (d - n)).
  { apply Z.div_lt_upper_bound; [exact P|].
    rewrite <- Z.pow_add_r by lia. now replace (n + (d - n)) with d by lia. }
  assert (0 < 2 ^ (d - n - 1)) by (apply Z.pow_pos_nonneg; lia).
  destruct (Z.pos m / 2 ^ n) as [|q|q] eqn:E; try lia.
  exists q. split; [reflexivity|]. apply digits2_pos_unique. lia.
Qed.

Lemma fexp_normal (mu : Z) : emin32 <= mu - prec -> fexp prec emax mu = mu - prec.
Proof. unfold fexp, SpecFloat.emin, prec, emax, emin32. lia. Qed.

Lemma shr_fexp_normal (m : positive) (e : Z) (l : location) :
  prec <= Z.pos (digits2_pos m) ->
  emin32 <= Z.pos (digits2_pos m) + e - prec ->
  exists q r s,
    shr_fexp prec emax (Z.pos m) e l
      = (Build_shr_record (Z.pos q) r s, Z.pos (digits2_pos m) + e - prec) /\
    Z.pos (digits2_pos q) = prec.
Proof.
  intros Hd Hn. unfold shr_fexp. cbn [Zdigits2].
  rewrite fexp_normal by exact Hn.
  set (d := Z.pos (digits2_pos m)) in *.
  replace (d + e - prec - e) with (d - prec) by lia.
  unfold shr. destruct (d - prec) as [|n|n] eqn:E; [| |lia].
  - assert (d = prec) by lia.
    destruct l as [|[]]; cbn [shr_record_of_loc]; do 3 eexists;
      (split; [f_equal; lia | assumption]).
  - destruct (div_pow2_digits m (Z.pos n)) as (q & Hq & Dq); [fold d; unfold prec in *; lia|].
    pose proof (iter_shr_1_div n (shr_record_of_loc (Z.pos m) l)) as Hs.
    assert (Hm : shr_m (shr_record_of_loc (Z.pos m) l) = Z.pos m)
      by (destruct l as [|[]]; reflexivity).
    rewrite Hm in Hs. specialize (Hs ltac:(lia)). rewrite Hq in Hs.
    destruct (SpecFloat.iter_pos shr_1 n _) as [m' r' s']. cbn [shr_m] in Hs. subst m'.
    exists q, r', s'. split; [f_equal; lia|]. fold d in Dq. lia.
Qed.

Lemma succ_digits (q : positive) :
  Z.pos (digits2_pos q) = prec ->
  Z.pos (digits2_pos (q + 1)) = prec \/ Z.pos (digits2_pos (q + 1)) = prec + 1.
Proof.
  intros D. pose proof (digits2_pos_spec q) as [Lo Hi]. rewrite D in Lo, Hi.
  destruct (Z.eq_dec (Z.pos q + 1) (2 ^ prec)) as [E|E].
  - right. apply digits2_pos_unique. rewrite Pos2Z.inj_add.
    replace (prec + 1 - 1) with prec by lia. unfold prec in *. lia.
  - left. apply digits2_pos_unique. rewrite Pos2Z.inj_add. lia.
Qed.

Lemma round_nearest_even_cases (q : positive) (l : location) :
  round_nearest_even (Z.pos q) l = Z.pos q \/
  round_nearest_even (Z.pos q) l = Z.pos (q + 1).
Proof.
  destruct l as [|[]]; cbn [round_nearest_even]; auto.
  destruct (Z.even (Z.pos q)); auto.
Qed.

Lemma binary_round_aux_at_least (s : bool) (m : positive) (e : Z) (l : location) :
  prec <= Z.pos (digits2_pos m) ->
  emin32 <= Z.pos (digits2_pos m) + e - prec ->
  at_least (Z.pos (digits2_pos m) + e - prec)
           (binary_round_aux prec emax s (Z.pos m) e l) /\
  sign_of (binary_round_aux prec emax s (Z.pos m) e l) = Some s.
Proof.
  intros Hd Hn. unfold binary_round_aux.
  destruct (shr_fexp_normal m e l Hd Hn) as (q & r & s0 & -> & Dq).
  set (e1 := Z.pos (digits2_pos m) + e - prec) in *. cbn [shr_m].
  assert (H2 : exists q2, round_nearest_even (Z.pos q)
                  (loc_of_shr_record {| shr_m := Z.pos q; shr_r := r; shr_s := s0 |})
                = Z.pos q2 /\
                (Z.pos (digits2_pos q2) = prec \/ Z.pos (digits2_pos q2) = prec + 1)).
  { destruct (round_nearest_even_cases q (loc_of_shr_record
       {| shr_m := Z.pos q; shr_r := r; shr_s := s0 |})) as [-> | ->];
      eexists; split; try reflexivity; [now left | now apply succ_digits]. }
  destruct H2 as (q2 & -> & D2).
  destruct (shr_fexp_normal q2 e1 loc_Exact) as (q3 & r3 & s3 & -> & D3);
    [lia | lia |].
  cbn [shr_m]. destruct (_ <=? _); cbn [sign_of]; (split; [|reflexivity]).
  - right. exists s, q3, (Z.pos (digits2_pos q2) + e1 - prec). repeat split; [assumption | lia].
  - left. eauto.
Qed.

Lemma shl_align_spec (m : positive) (e e' : Z) :
  exists m', shl_align m e e' = (m', Z.min e e') /\
             Z.pos m' = Z.pos m * 2 ^ (e - Z.min e e').
Proof.
  unfold shl_align. destruct (e' - e) as [|d|d] eqn:E.
  - exists m. rewrite Z.min_l by lia. split; [reflexivity|].
    rewrite Z.sub_diag. cbn. lia.
  - exists m. rewrite Z.min_l by lia. split; [reflexivity|].
    rewrite Z.sub_diag. cbn. lia.
  - exists (Pos.iter xO m d). rewrite Z.min_r by lia. split; [reflexivity|].
    rewrite iter_xO_mul. f_equal. f_equal. lia.
Qed.

Lemma mul_pow2_digits (m m' : positive) (n : Z) :
  0 <= n -> Z.pos m' = Z.pos m * 2 ^ n ->
  Z.pos (digits2_pos m') = Z.pos (digits2_pos m) + n.
Proof.
  intros Hn E. pose proof (digits2_pos_spec m) as [Lo Hi].
  apply digits2_pos_unique. rewrite E.
  replace (Z.pos (digits2_pos m) + n - 1) with (Z.pos (digits2_pos m) - 1 + n) by lia.
  rewrite !Z.pow_add_r by lia.
  assert (0 < 2 ^ n) by (apply Z.pow_pos_nonneg; lia). nia.
Qed.

Lemma binary_round_at_least (s : bool) (m : positive) (e : Z) :
  emin32 <= Z.pos (digits2_pos m) + e - prec ->
  at_least (Z.pos (digits2_pos m) + e - prec) (binary_round prec emax s m e) /\
  sign_of (binary_round prec emax s m e) = Some s.
Proof.
  intros Hn. unfold binary_round.
  rewrite fexp_normal by exact Hn.
  destruct (shl_align_spec m e (Z.pos (digits2_pos m) + e - prec)) as (m' & -> & Hm').
  set (ez := Z.min e _) in *.
  pose proof (mul_pow2_digits m m' (e - ez) ltac:(lia) Hm') as D.
  replace (Z.pos (digits2_pos m) + e - prec)
    with (Z.pos (digits2_pos m') + ez - prec) in * by lia.
  apply binary_round_aux_at_least; lia.
Qed.

Lemma at_least_weaken t t' f : t <= t' -> at_least t' f -> at_least t f.
Proof.
  intros Ht [H|(s & m & e & -> & D & He)]; [now left|].
  right. exists s, m, e. repeat split; [assumption | lia].
Qed.

(** Rounding an integer mantissa [M <> 0] at exponent [ez]. *)
Lemma binary_normalize_at_least (M ez t : Z) :
  emin32 <= t -> 0 <= t + prec - 1 - ez ->
  2 ^ (t + prec - 1 - ez) <= Z.abs M ->
  at_least t (binary_normalize prec emax M ez false) /\
  sign_of (binary_normalize prec emax M ez false) = Some (M <? 0).
Proof.
  intros Ht Hk HM.
  assert (0 < 2 ^ (t + prec - 1 - ez)) by (apply Z.pow_pos_nonneg; lia).
  destruct M as [|M|M]; [cbn in HM; lia| |]; cbn [binary_normalize Z.ltb Z.compare];
    cbn [Z.abs] in HM; apply digits2_pos_ge in HM.
  - destruct (binary_round_at_least false M ez) as [A S]; [lia|].
    split; [|exact S]. eapply at_least_weaken; [|exact A]. lia.
  - destruct (binary_round_at_least true M ez) as [A S]; [lia|].
    split; [|exact S]. eapply at_least_weaken; [|exact A]. lia.
Qed.

Lemma fsub_at_least (sx sy : bool) (mx my : positive) (ex ey t : Z) :
  let ez := Z.min ex ey in
  let M := cond_Zopp sx (Z.pos mx * 2 ^ (ex - ez))
           - cond_Zopp sy (Z.pos my * 2 ^ (ey - ez)) in
  emin32 <= t -> 0 <= t + prec - 1 - ez ->
  2 ^ (t + prec - 1 - ez) <= Z.abs M ->
  at_least t (fsub (S754_finite sx mx ex) (S754_finite sy my ey)).
Proof.
  intros ez M Ht Hk HM. unfold fsub, SFsub. fold ez.
  destruct (shl_align_spec mx ex ez) as (mx' & Ex & Vx).
  destruct (shl_align_spec my ey ez) as (my' & Ey & Vy).
  rewrite Ex, Ey. cbn [fst].
  replace (Z.min ex ez) with ez in Vx by (subst ez; lia).
  replace (Z.min ey ez) with ez in Vy by (subst ez; lia).
  rewrite Vx, Vy. fold M.
  now apply binary_normalize_at_least.
Qed.

Lemma fadd_at_least (mx my : positive) (ex ey t : Z) :
  emin32 <= t -> Z.pos (digits2_pos my) = prec -> t <= ey ->
  big t (fadd (S754_finite false mx ex) (S754_finite false my ey)) /\
  big t (fadd (S754_finite false my ey) (S754_finite false mx ex)).
Proof.
  intros Ht D He.
  pose proof (digits2_pos_spec my) as [Lo _]. rewrite D in Lo.
  assert (G : forall a b, a = Z.min ex ey -> b = Z.min ex ey ->
     forall ma mb, Z.pos ma + Z.pos mb
       = Z.pos mx * 2 ^ (ex - Z.min ex ey) + Z.pos my * 2 ^ (ey - Z.min ex ey) ->
     big t (binary_normalize prec emax (Z.pos ma + Z.pos mb) (Z.min ex ey) false)).
  { intros a b _ _ ma mb E. rewrite E.
    set (ez := Z.min ex ey) in *.
    assert (P1 : 0 < 2 ^ (ex - ez)) by (apply Z.pow_pos_nonneg; lia).
    assert (P3 : 0 < 2 ^ (ey - ez)) by (apply Z.pow_pos_nonneg; lia).
    assert (P2 : 2 ^ (ey + prec - 1 - ez) <= Z.pos my * 2 ^ (ey - ez)).
    { replace (ey + prec - 1 - ez) with ((prec - 1) + (ey - ez)) by lia.
      rewrite Z.pow_add_r by (unfold prec; lia). nia. }
    destruct (binary_normalize_at_least
                (Z.pos mx * 2 ^ (ex - ez) + Z.pos my * 2 ^ (ey - ez)) ez ey)
      as [A S]; [lia | unfold prec in *; subst ez; lia | nia |].
    split; [now apply (at_least_weaken t ey)|]. rewrite S. f_equal.
    apply Z.ltb_ge. nia. }
  destruct (shl_align_spec mx ex (Z.min ex ey)) as (mx' & Ex & Vx).
  destruct (shl_align_spec my ey (Z.min ex ey)) as (my' & Ey & Vy).
  replace (Z.min ex (Z.min ex ey)) with (Z.min ex ey) in * by lia.
  replace (Z.min ey (Z.min ex ey)) with (Z.min ex ey) in * by lia.
  split; unfold fadd, SFadd; cbn [cond_Zopp].
  - rewrite Ex, Ey. cbn [fst]. eapply G; eauto. lia.
  - rewrite (Z.min_comm ey ex), Ex, Ey. cbn [fst].
    rewrite Z.add_comm. eapply G; eauto. lia.
Qed.

Lemma big_add t a b :
  emin32 <= t -> sign_of a = Some false -> big t b ->
  big t (fadd a b) /\ big t (fadd b a).
Proof.
  intros Ht Sa [[(s & ->)|(s & m & e & -> & D & He)] Sb];
    cbn [sign_of] in Sb; injection Sb as ->;
    (destruct a as [sa|sa| |sa ma ea]; [| | discriminate |]);
    cbn [sign_of] in Sa; injection Sa as ->.
  - split; (split; [left; eexists; reflexivity | reflexivity]).
  - split; (split; [left; eexists; reflexivity | reflexivity]).
  - split; (split; [left; eexists; reflexivity | reflexivity]).
  - split; (split; [right; exists false, m, e; auto | reflexivity]).
  - split; (split; [left; eexists; reflexivity | reflexivity]).
  - now apply fadd_at_least.
Qed.

Lemma fmul_self_sign d : is_nan d = false -> sign_of (fmul d d) = Some false.
Proof.
  destruct d as [s|s| |s m e]; try discriminate; intros _.
  - cbn. now rewrite xorb_nilpotent.
  - cbn. now rewrite xorb_nilpotent.
  - unfold fmul, SFmul. rewrite xorb_nilpotent.
    destruct (binary_round_aux_cases false (Z.pos (m * m)) (e + e) loc_Exact
                ltac:(lia)) as [H|[H|(m' & e' & H)]]; now rewrite H.
Qed.

Lemma big_square d : at_least (-17) d -> big (-11) (fmul d d).
Proof.
  intros [(s & ->)|(s & m & e & -> & D & He)].
  - split; [left; eexists; reflexivity | cbn; now rewrite xorb_nilpotent].
  - unfold fmul, SFmul. rewrite xorb_nilpotent.
    pose proof (digits2_pos_spec m) as [Lo _]. rewrite D in Lo.
    assert (Dm : 47 <= Z.pos (digits2_pos (m * m))).
    { apply (digits2_pos_ge _ 46). rewrite Pos2Z.inj_mul.
      change (2 ^ 46) with (2 ^ (prec - 1) * 2 ^ (prec - 1)). nia. }
    destruct (binary_round_aux_at_least false (m * m) (e + e) loc_Exact) as [A S];
      [unfold prec; lia | unfold emin32, prec; lia |].
    split; [|exact S]. eapply at_least_weaken; [|exact A]. unfold prec. lia.
Qed.

Lemma big_sqrt b : big (-11) b -> big (-17) (sqrtf b).
Proof.
  intros [[(s & ->)|(s & m & e & -> & D & He)] Sb];
    cbn [sign_of] in Sb; injection Sb as ->.
  - split; [left; eexists; reflexivity | reflexivity].
  - unfold sqrtf, SFsqrt, SFsqrt_core_binary. cbn [Zdigits2]. rewrite D.
    rewrite fexp_normal
      by (rewrite Z.div2_div; unfold emin32, prec;
          pose proof (Z.div_le_lower_bound (24 + e + 1) 2 7); lia).
    rewrite !Z.div2_div.
    pose proof (Z.div_mod (prec + e + 1) 2 ltac:(lia)) as E1.
    pose proof (Z.mod_pos_bound (prec + e + 1) 2 ltac:(lia)) as B1.
    pose proof (Z.div_mod e 2 ltac:(lia)) as E2.
    pose proof (Z.mod_pos_bound e 2 ltac:(lia)) as B2.
    set (h := (prec + e + 1) / 2) in *. set (h2 := e / 2) in *.
    rewrite Z.min_l by (unfold prec in *; lia).
    assert (Hsh : e - 2 * (h - prec) = 23 \/ e - 2 * (h - prec) = 24)
      by (unfold prec in *; lia).
    remember (e - 2 * (h - prec)) as sh eqn:Esh. clear Esh.
    pose proof (digits2_pos_spec m) as [Lo Hi]. rewrite D in Lo, Hi.
    change (2 ^ (prec - 1)) with 8388608 in Lo. change (2 ^ prec) with 16777216 in Hi.
    set (m' := match sh with
               | 0 => Z.pos m | Z.pos _ => Z.shiftl (Z.pos m) sh | Z.neg _ => 0
               end).
    assert (Hm' : m' = Z.pos m * 2 ^ sh).
    { unfold m'. destruct Hsh as [-> | ->]; cbv iota;
        rewrite Z.shiftl_mul_pow2 by lia; reflexivity. }
    pose proof (Z.sqrtrem_spec m' ltac:(lia)) as Hq.
    destruct (Z.sqrtrem m') as [q r].
    assert (Q : 8388608 <= q < 16777216).
    { destruct Hq as [Hq Hr]. rewrite Hm' in Hq.
      destruct Hsh as [-> | ->].
      - change (2 ^ 23) with 8388608 in Hq. nia.
      - change (2 ^ 24) with 16777216 in Hq. nia. }
    destruct q as [|q|q]; try lia.
    assert (Dq : Z.pos (digits2_pos q) = prec).
    { apply digits2_pos_unique. change (2 ^ (prec - 1)) with 8388608.
      change (2 ^ prec) with 16777216. lia. }
    match goal with |- context [binary_round_aux _ _ _ _ _ ?l] =>
      destruct (binary_round_aux_at_least false q (h - prec) l) as [A S] end;
      [lia | unfold emin32, prec in *; lia |].
    split; [|exact S]. eapply at_least_weaken; [|exact A].
    unfold prec in *. lia.
Qed.

Lemma big_not_lt_35 d : big (-17) d -> flt d (fadd (of_int 20) (of_int 15)) = false.
Proof.
  change (fadd (of_int 20) (of_int 15)) with (S754_finite false 9175040 (-18)).
  intros [[(s & ->)|(s & m & e & -> & D & He)] Sb];
    cbn [sign_of] in Sb; injection Sb as ->.
  - reflexivity.
  - unfold flt, SFltb. cbn [SFcompare].
    destruct (Z.compare_spec e (-18)); try reflexivity; lia.
Qed.

Lemma fle_finite_inv (m1 m2 : positive) (e1 e2 : Z) :
  fle (S754_finite false m1 e1) (S754_finite false m2 e2) = true ->
  e1 <= e2 /\ (e1 = e2 -> Z.pos m1 <= Z.pos m2).
Proof.
  unfold fle, SFleb. cbn [SFcompare].
  change (Pos.compare_cont Eq m1 m2) with (Z.pos m1 ?= Z.pos m2).
  destruct (Z.compare_spec e1 e2) as [E|E|E]; try discriminate.
  - destruct (Z.compare_spec (Z.pos m1) (Z.pos m2)); try discriminate;
      intros _; split; lia.
  - intros _. split; lia.
Qed.

(** The shape of a valid coordinate between 20 and a bound below 1024. *)
Lemma coordinate_shape v mH :
  valid v -> fle (of_int 20) v = true ->
  fle v (S754_finite false mH (-14)) = true ->
  exists m e, v = S754_finite false m e /\
              8388608 <= Z.pos m < 16777216 /\ -19 <= e <= -14 /\
              (e = -19 -> 10485760 <= Z.pos m) /\
              (e = -14 -> Z.pos m <= Z.pos mH).
Proof.
  change (of_int 20) with (S754_finite false 10485760 (-19)).
  intros Hv H20 H780.
  destruct v as [s|s| |s m e]; try discriminate; [destruct s; discriminate|].
  destruct s; [discriminate|].
  apply fle_finite_inv in H20 as [A1 A2]. apply fle_finite_inv in H780 as [B1 B2].
  unfold valid in Hv. cbn [valid_binary] in Hv.
  unfold bounded, canonical_mantissa in Hv.
  apply andb_true_iff in Hv as [Hc _]. apply Z.eqb_eq in Hc.
  exists m, e. split; [reflexivity|].
  split.
  { assert (D : Z.pos (digits2_pos m) = 24)
      by (unfold fexp, SpecFloat.emin, prec, emax in *; lia).
    pose proof (digits2_pos_spec m) as S. rewrite D in S. exact S. }
  split; [lia|]. split; intros E; [apply A2 | apply B2]; lia.
Qed.

(** A coordinate in the clamped field is at least 70 away from the line
    50 beyond an edge: the difference has magnitude at least 64. *)
Lemma gap_to_edge (m mc : positive) (e ec : Z) (sc : bool) (mH : positive) :
  8388608 <= Z.pos m < 16777216 -> -19 <= e <= -14 ->
  (e = -19 -> 10485760 <= Z.pos m) -> (e = -14 -> Z.pos m <= Z.pos mH) ->
  (sc = true /\ mc = 13107200%positive /\ ec = -18) \/
  (sc = false /\ ec = -14 /\ 9437184 <= Z.pos mc /\
   Z.pos mH + 1146880 <= Z.pos mc) ->
  at_least (-17) (fsub (S754_finite false m e) (S754_finite sc mc ec)).
Proof.
  intros Hm He Lo Hi Hc.
  apply fsub_at_least; [unfold emin32; lia | unfold prec; lia |].
  unfold prec.
  assert (E : e = -19 \/ e = -18 \/ e = -17 \/ e = -16 \/ e = -15 \/ e = -14)
    by lia.
  destruct Hc as [(-> & -> & ->)|(-> & -> & Hc1 & Hc2)]; cbv [cond_Zopp];
    destruct E as [-> | [-> | [-> | [-> | [-> | ->]]]]];
    close_pow; lia.
Qed.

(** * Loops and the enemy pool *)

(** An invariant indexed by the loop counter. *)
Lemma for_up_ind {St : Type} (body : nat -> St -> St) (P : nat -> St -> Prop)
    (n i : nat) (s : St) :
  P i s ->
  (forall k s', (i <= k < i + n)%nat -> P k s' -> P (S k) (body k s')) ->
  P (i + n)%nat (for_up body n i s).
Proof.
  revert i s. induction n as [|n IH]; intros i s Hs Hstep; simpl.
  - now replace (i + 0)%nat with i by lia.
  - replace (i + S n)%nat with (S i + n)%nat by lia.
    apply IH.
    + apply Hstep; [lia | exact Hs].
    + intros k s' Hk. apply Hstep. lia.
Qed.

(** An invariant that does not mention the counter. *)
Lemma for_up_inv {St : Type} (body : nat -> St -> St) (P : St -> Prop)
    (n i : nat) (s : St) :
  P s -> (forall k s', P s' -> P (body k s')) -> P (for_up body n i s).
Proof.
  intros Hs Hstep.
  apply (for_up_ind body (fun _ => P)); [exact Hs | intros k s' _; apply Hstep].
Qed.

Lemma upd_enemy_keeps_active (j : nat) (f : GameObject -> GameObject)
    (game : GameState) :
  (forall e, active e = true -> active (f e) = true) ->
  all_enemies_active game -> all_enemies_active (upd_enemy j f game).
Proof.
  intros Hf [Hlen Hall]. split; simpl.
  - now rewrite length_alter.
  - apply Forall_alter; [exact Hall | intros e _; apply Hf].
Qed.

Lemma enemies_UpdatePlayer inp game dt :
  enemies (UpdatePlayer inp game dt) = enemies game.
Proof. reflexivity. Qed.

Lemma enemies_FireBullet_scan d n i game :
  enemies (FireBullet_scan d n i game) = enemies game.
Proof.
  revert i game. induction n as [|n IH]; intros i game; simpl; [reflexivity|].
  destruct (bullets game !! i) as [b|]; [|apply IH].
  destruct (active b); simpl; [apply IH | reflexivity].
Qed.

Lemma enemies_FireBullet inp game :
  enemies (FireBullet inp game) = enemies game.
Proof. apply enemies_FireBullet_scan. Qed.

Lemma enemies_UpdateBullets game dt :
  enemies (UpdateBullets game dt) = enemies game.
Proof.
  unfold UpdateBullets.
  apply (for_up_inv _ (fun g => enemies g = enemies game)); [reflexivity|].
  intros k g Hg. unfold UpdateBullets_body.
  destruct (bullets g !! k) as [b|]; [|exact Hg].
  destruct (active b); [|exact Hg].
  match goal with |- context [match ?o with _ => _ end] => destruct o as [b'|] end;
    [destruct (off_screen _)|]; exact Hg.
Qed.

Lemma UpdateEnemies_keeps_active game dt :
  all_enemies_active game -> all_enemies_active (UpdateEnemies game dt).
Proof.
  intros H. unfold UpdateEnemies. apply for_up_inv; [exact H|].
  intros k g Hg. unfold UpdateEnemies_body.
  destruct (enemies g !! k) as [e|]; [|exact Hg].
  destruct (active e); [|exact Hg].
  do 2 (apply upd_enemy_keeps_active; [intros e' He'; exact He'|]).
  exact Hg.
Qed.

Lemma on_hit_keeps_active i j game r :
  all_enemies_active game -> all_enemies_active (fst (on_hit i j (game, r))).
Proof.
  intros [Hlen Hall]. unfold on_hit.
  destruct (GetRandomValue 0 3 r) as [edge r1].
  set (g1 := set_score _ _).
  assert (Hfin : forall g2 : GameState,
            (exists f, enemies g2 = alter f j (enemies game)) ->
            all_enemies_active (upd_enemy j (set_active true) g2)).
  { intros g2 [f Hf]. split; simpl; rewrite Hf.
    - now rewrite !length_alter.
    - rewrite list_alter_alter_eq. apply Forall_alter; [exact Hall|].
      intros e _ _. reflexivity. }
  destruct (enemies g1 !! j) as [e|].
  - destruct (respawn_position edge (position e) r1) as [p r2]. simpl.
    apply Hfin. eexists. simpl. rewrite list_alter_alter_eq. reflexivity.
  - simpl. apply Hfin. eexists. reflexivity.
Qed.

Lemma enemy_body_keeps_active i j st :
  all_enemies_active (fst st) -> all_enemies_active (fst (enemy_body i j st)).
Proof.
  intros H. unfold enemy_body. destruct (hit_test i j (fst st)); [|exact H].
  destruct st as [game r]. now apply on_hit_keeps_active.
Qed.

Lemma bullet_body_keeps_active i st :
  all_enemies_active (fst st) -> all_enemies_active (fst (bullet_body i st)).
Proof.
  intros H. unfold bullet_body.
  destruct (bullets (fst st) !! i) as [b|]; [|exact H].
  destruct (active b); [|exact H].
  apply (for_up_inv _ (fun s => all_enemies_active (fst s))); [exact H|].
  intros k s'. apply enemy_body_keeps_active.
Qed.

Lemma enemies_player_body i game :
  enemies (player_body i game) = enemies game.
Proof.
  unfold player_body. destruct (enemies game !! i) as [e|]; [|reflexivity].
  now destruct (_ && _).
Qed.

Lemma CheckCollisions_keeps_active game r :
  all_enemies_active game ->
  all_enemies_active (fst (CheckCollisions game r)).
Proof.
  intros H. unfold CheckCollisions.
  generalize MAX_BULLETS. intros nb.
  pose proof (for_up_inv bullet_body (fun s => all_enemies_active (fst s))
                nb 0 (game, r) H bullet_body_keeps_active) as H1.
  revert H1. generalize (for_up bullet_body nb 0 (game, r)).
  intros [g1 r1] H1. cbn [fst] in *.
  apply (for_up_inv _ (fun g => all_enemies_active g)); [exact H1|].
  intros k g [Hl Ha]. unfold all_enemies_active.
  now rewrite enemies_player_body.
Qed.

Lemma InitGame_all_active stack r :
  length (enemies stack) = MAX_ENEMIES ->
  all_enemies_active (fst (InitGame stack r)).
Proof.
  intros Hlen. unfold InitGame.
  set (g1 := for_up _ MAX_BULLETS 0 _).
  assert (Hg1 : length (enemies g1) = MAX_ENEMIES).
  { subst g1. apply (for_up_inv _ (fun g => length (enemies g) = MAX_ENEMIES));
      [exact Hlen | intros k g Hg; exact Hg]. }
  match goal with |- context [for_up ?b MAX_ENEMIES 0%nat (g1, r)] =>
    pose proof (for_up_ind b
      (fun k s => length (enemies (fst s)) = MAX_ENEMIES /\
                  forall j e, (j < k)%nat -> enemies (fst s) !! j = Some e ->
                              active e = true)
      MAX_ENEMIES 0 (g1, r)) as Hloop;
    destruct (for_up b MAX_ENEMIES 0%nat (g1, r)) as [g2 r2]
  end.
  simpl in Hloop. destruct Hloop as [Hl Ha].
  - split; [exact Hg1 | intros j e Hj; lia].
  - intros k [g r0] _ [Hl Ha]. simpl in *.
    destruct (GetRandomValue 0 SCREEN_WIDTH r0) as [rx r1].
    destruct (GetRandomValue 0 SCREEN_HEIGHT r1) as [ry r3]. simpl.
    split; [now rewrite !length_alter|].
    intros j e Hj. rewrite !list_alter_alter_eq.
    destruct (decide (j = k)) as [->|Hne].
    + rewrite list_lookup_alter_eq.
      destruct (enemies g !! k); simpl; [|discriminate].
      intros [= <-]. reflexivity.
    + rewrite list_lookup_alter_ne by congruence. apply Ha. lia.
  - split; simpl; [exact Hl|].
    apply Forall_lookup. intros j e Hje. apply (Ha j e); [|exact Hje].
    apply lookup_lt_Some in Hje. unfold MAX_ENEMIES in *. lia.
Qed.

(** * The frame loop and FireBullet *)

Lemma frame_runs_calls inp st :
  frame inp st = foldl (run_call inp) st (frame_calls inp st).
Proof.
  destruct st as [game r]. unfold frame, frame_calls. cbn [fst].
  destruct (gameOver game); cbn [negb].
  - destruct (IsKeyPressed inp KEY_R); cbn [foldl run_call]; reflexivity.
  - destruct (IsMouseButtonPressed inp); cbn [foldl run_call app]; reflexivity.
Qed.

Lemma run_call_keeps_active inp st c :
  all_enemies_active (fst st) -> all_enemies_active (fst (run_call inp st c)).
Proof.
  destruct st as [game r]. intros H. cbn [fst] in H.
  destruct c; cbn [run_call fst].
  - apply InitGame_all_active, H.
  - exact H.
  - unfold all_enemies_active. rewrite enemies_FireBullet. exact H.
  - unfold all_enemies_active. rewrite enemies_UpdateBullets. exact H.
  - now apply UpdateEnemies_keeps_active.
  - now apply CheckCollisions_keeps_active.
Qed.

Lemma run_calls_keep_active cs st :
  all_enemies_active (fst st) -> all_enemies_active (fst (run_calls cs st)).
Proof.
  revert st. induction cs as [|[inp c] cs IH]; intros st H; [exact H|].
  apply IH. now apply run_call_keeps_active.
Qed.

Lemma frame_keeps_active inp st :
  all_enemies_active (fst st) -> all_enemies_active (fst (frame inp st)).
Proof.
  intros H. rewrite frame_runs_calls.
  generalize (frame_calls inp st). intros cs. revert st H.
  induction cs as [|c cs IH]; intros st H; [exact H|].
  apply IH. now apply run_call_keeps_active.
Qed.

Lemma main_loop_keeps_active inputs st :
  all_enemies_active (fst st) -> all_enemies_active (fst (main_loop inputs st)).
Proof.
  revert st. induction inputs as [|inp rest IH]; intros st H; simpl; [exact H|].
  destruct (WindowShouldClose inp); [exact H|].
  destruct (IsKeyPressed inp KEY_ESCAPE).
  - now apply frame_keeps_active.
  - apply IH. now apply frame_keeps_active.
Qed.

(** C2.  After [InitGame], after every complete call of [InitGame],
    [UpdatePlayer], [FireBullet], [UpdateBullets], [UpdateEnemies] or
    [CheckCollisions], in any order and with any inputs, the enemy pool has
    exactly 10 slots and all of them are active; so does every state the
    frame loop of [main] reaches. *)
Theorem enemies_always_active (stack : GameState) (r : Rand) :
  length (enemies stack) = MAX_ENEMIES ->
  (forall cs, all_enemies_active (fst (run_calls cs (InitGame stack r)))) /\
  (forall inputs, all_enemies_active (fst (main stack r inputs))).
Proof.
  intros Hlen. split.
  - intros cs. apply run_calls_keep_active, InitGame_all_active, Hlen.
  - intros inputs. apply main_loop_keeps_active, InitGame_all_active, Hlen.
Qed.

Lemma gameOver_InitGame stack r : gameOver (fst (InitGame stack r)) = false.
Proof.
  unfold InitGame.
  match goal with |- context [for_up ?b MAX_ENEMIES 0%nat ?s] =>
    destruct (for_up b MAX_ENEMIES 0%nat s) as [g2 r2] end.
  reflexivity.
Qed.

Lemma score_InitGame stack r : score (fst (InitGame stack r)) = 0.
Proof.
  unfold InitGame.
  match goal with |- context [for_up ?b MAX_ENEMIES 0%nat ?s] =>
    destruct (for_up b MAX_ENEMIES 0%nat s) as [g2 r2] end.
  reflexivity.
Qed.

(** C9.  In a loop iteration that starts with the game-over flag set, no
    gameplay function is called; without the restart key the state (and the
    random stream) is unchanged, with it the iteration is exactly
    [InitGame], which clears the flag and the score. *)
Theorem game_over_is_terminal (inp : Input) (game : GameState) (r : Rand) :
  gameOver game = true ->
  Forall (fun c => is_gameplay c = false) (frame_calls inp (game, r)) /\
  frame inp (game, r) = foldl (run_call inp) (game, r) (frame_calls inp (game, r)) /\
  (IsKeyPressed inp KEY_R = false -> frame inp (game, r) = (game, r)) /\
  (IsKeyPressed inp KEY_R = true ->
     frame inp (game, r) = InitGame game r /\
     gameOver (fst (frame inp (game, r))) = false /\
     score (fst (frame inp (game, r))) = 0).
Proof.
  intros Hover. split; [|split; [apply frame_runs_calls|split]].
  - unfold frame_calls. cbn [fst]. rewrite Hover. cbn [negb].
    destruct (IsKeyPressed inp KEY_R); repeat constructor.
  - intros HR. unfold frame. now rewrite Hover, HR.
  - intros HR. unfold frame. rewrite Hover, HR. cbn [negb].
    split; [reflexivity|]. split; [apply gameOver_InitGame|apply score_InitGame].
Qed.

Lemma FireBullet_scan_full d n i game :
  Forall (fun b => active b = true) (bullets game) ->
  FireBullet_scan d n i game = game.
Proof.
  intros Hall. revert i. induction n as [|n IH]; intros i; simpl; [reflexivity|].
  destruct (bullets game !! i) as [b|] eqn:Hb; [|apply IH].
  rewrite (proj1 (Forall_lookup _ _) Hall i b Hb). simpl. apply IH.
Qed.

Lemma FireBullet_scan_first inp game n i0 i b :
  bullets game !! i = Some b -> active b = false ->
  (i0 <= i < i0 + n)%nat ->
  (forall k b', (i0 <= k < i)%nat -> bullets game !! k = Some b' -> active b' = true) ->
  FireBullet_scan (direction_to (GetMousePosition inp) (position (player game)))
                  n i0 game
  = set_bullets (<[i := fired_bullet inp game b]> (bullets game)) game.
Proof.
  intros Hb Hact. revert i0. induction n as [|n IH]; intros i0 Hi Hbefore; [lia|].
  simpl. destruct (decide (i0 = i)) as [->|Hne].
  - rewrite Hb, Hact. cbn [negb]. unfold upd_bullet, set_bullets. simpl.
    f_equal. rewrite !list_alter_alter_eq, list_insert_alter.
    apply list_alter_ext; [|reflexivity].
    intros b0 Hb0. rewrite Hb in Hb0. injection Hb0 as <-. reflexivity.
  - destruct (bullets game !! i0) as [b0|] eqn:Hb0.
    + rewrite (Hbefore i0 b0) by (lia || exact Hb0). cbn [negb].
      apply IH; [lia|]. intros k b' Hk. apply Hbefore. lia.
    + apply IH; [lia|]. intros k b' Hk. apply Hbefore. lia.
Qed.

Lemma FireBullet_first_free inp game i b :
  (i < MAX_BULLETS)%nat ->
  bullets game !! i = Some b -> active b = false ->
  (forall k b', (k < i)%nat -> bullets game !! k = Some b' -> active b' = true) ->
  FireBullet inp game
  = set_bullets (<[i := fired_bullet inp game b]> (bullets game)) game.
Proof.
  intros Hi Hb Hact Hbefore. unfold FireBullet.
  apply FireBullet_scan_first; auto; [lia|].
  intros k b' Hk. apply Hbefore. lia.
Qed.

(** C4.  When every bullet slot is active, [FireBullet] returns the state
    unchanged.  Otherwise the lowest-index inactive slot [i] gets the
    player's position, the velocity direction times 400 and the active flag
    (its radius and colour stay); every other slot and every other field of
    the state is unchanged. *)
Theorem FireBullet_pool (inp : Input) (game : GameState) :
  (Forall (fun b => active b = true) (bullets game) ->
   FireBullet inp game = game) /\
  (forall i b,
     (i < MAX_BULLETS)%nat ->
     bullets game !! i = Some b -> active b = false ->
     (forall k b', (k < i)%nat -> bullets game !! k = Some b' -> active b' = true) ->
     FireBullet inp game
       = set_bullets (<[i := fired_bullet inp game b]> (bullets game)) game /\
     (forall k, k <> i -> bullets (FireBullet inp game) !! k = bullets game !! k)).
Proof.
  split.
  - intros Hall. now apply FireBullet_scan_full.
  - intros i b Hi Hb Hact Hbefore.
    pose proof (FireBullet_first_free inp game i b Hi Hb Hact Hbefore) as E.
    split; [exact E|]. intros k Hk. rewrite E. simpl.
    apply list_lookup_insert_ne. congruence.
Qed.

Arguments for_up {St} body n start s : simpl never.

(** * Respawn on a hit *)

Lemma edge_point_in_band edge k :
  0 <= edge <= 3 -> 0 <= k <= edge_extent edge -> in_edge_band (edge_point edge k).
Proof.
  intros He Hk. exists k.
  assert (edge = 0 \/ edge = 1 \/ edge = 2 \/ edge = 3) as [-> | [-> | [-> | ->]]] by lia;
    cbn in Hk |- *; unfold SCREEN_WIDTH, SCREEN_HEIGHT in Hk; auto 6.
Qed.

Lemma GetRandomValue_from_0 (hi : Z) (r : Rand) :
  0 <= hi -> GetRandomValue 0 hi r = (r 0%nat mod (hi + 1), fun n => r (S n)).
Proof.
  intros H. unfold GetRandomValue. f_equal.
  rewrite Z.sub_0_r, Z.abs_eq, Z.min_l by lia. lia.
Qed.

Lemma on_hit_spec i j game r e :
  enemies game !! j = Some e ->
  on_hit i j (game, r)
  = (mkGameState (player game)
       (alter (set_active false) i (bullets game))
       (<[j := respawned r e]> (enemies game))
       (wrap_int (score game + 10)) (gameOver game),
     fun n => r (S (S n))).
Proof.
  intros He. unfold on_hit, respawned.
  rewrite GetRandomValue_from_0 by lia. change (3 + 1) with 4.
  pose proof (Z.mod_pos_bound (r 0%nat) 4 ltac:(lia)) as Hb.
  set (edge := r 0%nat mod 4) in *.
  cbn [enemies upd_enemy set_enemies set_score upd_bullet set_bullets bullets player score gameOver].
  rewrite list_lookup_alter_eq, He. cbn [fmap option_fmap option_map].
  assert (Hpos : respawn_position edge (position (set_active false e))
                   (fun n => r (S n))
                 = (edge_point edge (r 1%nat mod (edge_extent edge + 1)),
                    fun n => r (S (S n)))).
  { assert (edge = 0 \/ edge = 1 \/ edge = 2 \/ edge = 3) as [-> | [-> | [-> | ->]]] by lia;
      cbn [respawn_position edge_point edge_extent Z.even];
      rewrite GetRandomValue_from_0 by (unfold SCREEN_WIDTH, SCREEN_HEIGHT; lia);
      reflexivity. }
  rewrite Hpos. cbn [upd_enemy set_enemies enemies player bullets score gameOver].
  f_equal. unfold upd_enemy, upd_bullet, set_enemies, set_bullets, set_score.
  cbn [enemies player bullets score gameOver]. f_equal.
  rewrite !list_alter_alter_eq, list_insert_alter.
  apply list_alter_ext; [|reflexivity].
  intros e' He'. rewrite He in He'. injection He' as <-. reflexivity.
Qed.

Lemma hit_test_enemy i j game :
  hit_test i j game = true -> exists e, enemies game !! j = Some e /\ active e = true.
Proof.
  unfold hit_test. destruct (bullets game !! i); [|discriminate].
  destruct (enemies game !! j) as [e|]; [|discriminate].
  intros H. apply andb_true_iff in H as [H _]. eauto.
Qed.

Lemma respawned_in_band r e : in_edge_band (position (respawned r e)).
Proof.
  unfold respawned. cbn [position].
  pose proof (Z.mod_pos_bound (r 0%nat) 4 ltac:(lia)) as Hb.
  apply edge_point_in_band; [lia|].
  assert (0 < edge_extent (r 0%nat mod 4) + 1).
  { unfold edge_extent, SCREEN_WIDTH, SCREEN_HEIGHT. destruct (Z.even _); lia. }
  pose proof (Z.mod_pos_bound (r 1%nat) _ H). lia.
Qed.

Lemma on_hit_banded i j game r :
  hit_test i j game = true -> banded j (fst (on_hit i j (game, r))).
Proof.
  intros H. destruct (hit_test_enemy _ _ _ H) as (e & He & _).
  rewrite (on_hit_spec _ _ _ _ _ He). cbn [fst]. exists (respawned r e).
  cbn [enemies]. split; [|split; [reflexivity | apply respawned_in_band]].
  apply list_lookup_insert_eq. now apply lookup_lt_Some in He.
Qed.

Lemma on_hit_keeps_banded i j j' game r :
  hit_test i j game = true -> banded j' game ->
  banded j' (fst (on_hit i j (game, r))).
Proof.
  intros H Hb. destruct (decide (j' = j)) as [->|Hne]; [now apply on_hit_banded|].
  destruct (hit_test_enemy _ _ _ H) as (e & He & _).
  rewrite (on_hit_spec _ _ _ _ _ He). cbn [fst].
  destruct Hb as (e' & He' & Hb). exists e'. cbn [enemies].
  split; [|exact Hb]. rewrite list_lookup_insert_ne by congruence. exact He'.
Qed.

Lemma for_up_S {St} (body : nat -> St -> St) n i s :
  for_up body (S n) i s = for_up body n (S i) (body i s).
Proof. reflexivity. Qed.

Lemma enemy_loop_banded i n j0 st :
  (forall j, banded j (fst st) -> banded j (fst (for_up (enemy_body i) n j0 st))) /\
  (forall p, In p (enemy_hits i n j0 st) ->
             banded (snd p) (fst (for_up (enemy_body i) n j0 st))).
Proof.
  revert j0 st. induction n as [|n IH]; intros j0 st.
  - split; [auto | intros p []].
  - rewrite for_up_S. cbn [enemy_hits]. unfold enemy_body at 2 4.
    destruct (hit_test i j0 (fst st)) eqn:Hh.
    + destruct st as [game r]. cbn [fst] in Hh.
      destruct (IH (S j0) (on_hit i j0 (game, r))) as [IH1 IH2]. split.
      * intros j Hj. apply IH1. now apply on_hit_keeps_banded.
      * intros p [<-|Hp]; [|now apply IH2].
        apply IH1. now apply on_hit_banded.
    + apply IH.
Qed.

Lemma bullet_body_banded i st :
  (forall j, banded j (fst st) -> banded j (fst (bullet_body i st))) /\
  (forall p, In p (bullet_hits i st) -> banded (snd p) (fst (bullet_body i st))).
Proof.
  unfold bullet_body, bullet_hits.
  destruct (bullets (fst st) !! i) as [b|]; [|split; [auto | intros p []]].
  destruct (active b); [|split; [auto | intros p []]].
  apply enemy_loop_banded.
Qed.

Lemma collision_loop_banded n i st :
  forall p, In p (collision_hits n i st) ->
            banded (snd p) (fst (for_up bullet_body n i st)).
Proof.
  revert i st. induction n as [|n IH]; intros i st p; [intros []|].
  rewrite for_up_S. cbn [collision_hits]. rewrite in_app_iff. intros [Hp|Hp].
  - apply (for_up_inv bullet_body (fun s => banded (snd p) (fst s))).
    + now apply bullet_body_banded.
    + intros k s'. apply bullet_body_banded.
  - now apply IH.
Qed.

(** C6.  A hit of [CheckCollisions] relocates the enemy to the point the
    next two random draws select: edge [r 0 mod 4] among top (y = -50),
    right (x = 850), bottom (y = 650) and left (x = -50), and a whole
    coordinate in [0,800] or [0,600] along it; the enemy is active again.
    When [CheckCollisions] returns, every enemy that was hit is active and in
    one of the four bands. *)
Theorem hit_enemy_respawns_on_edge (game : GameState) (r : Rand) :
  (forall i j e, hit_test i j game = true -> enemies game !! j = Some e ->
     enemies (fst (on_hit i j (game, r))) !! j = Some (respawned r e) /\
     in_edge_band (position (respawned r e)) /\
     active (respawned r e) = true) /\
  (forall i j, In (i, j) (CheckCollisions_hits game r) ->
     exists e, enemies (fst (CheckCollisions game r)) !! j = Some e /\
               active e = true /\ in_edge_band (position e)).
Proof.
  split.
  - intros i j e Hh He. rewrite (on_hit_spec _ _ _ _ _ He). cbn [fst enemies].
    split; [|split; [apply respawned_in_band | reflexivity]].
    apply list_lookup_insert_eq. now apply lookup_lt_Some in He.
  - intros i j. unfold CheckCollisions_hits, CheckCollisions.
    generalize MAX_BULLETS, MAX_ENEMIES. intros nb ne Hin.
    apply collision_loop_banded in Hin. cbn [snd] in Hin.
    revert Hin. generalize (for_up bullet_body nb 0 (game, r)).
    intros [g1 r1] Hin. cbn [fst] in *.
    assert (E : enemies (for_up player_body ne 0 g1) = enemies g1).
    { apply (for_up_inv _ (fun g => enemies g = enemies g1)); [reflexivity|].
      intros k g Hg. now rewrite enemies_player_body. }
    rewrite E. exact Hin.
Qed.

(** * The score *)

Lemma wrap_int_id z : INT_MIN <= z <= INT_MAX -> wrap_int z = z.
Proof.
  unfold INT_MIN, INT_MAX, wrap_int. intros H.
  rewrite Z.mod_small; lia.
Qed.

Lemma score_on_hit i j game r :
  hit_test i j game = true ->
  score (fst (on_hit i j (game, r))) = wrap_int (score game + 10).
Proof.
  intros H. destruct (hit_test_enemy _ _ _ H) as (e & He & _).
  now rewrite (on_hit_spec _ _ _ _ _ He).
Qed.

Lemma enemy_loop_score i n j0 st :
  INT_MIN <= score (fst st) ->
  score (fst st) + 10 * Z.of_nat (length (enemy_hits i n j0 st)) <= INT_MAX ->
  score (fst (for_up (enemy_body i) n j0 st))
  = score (fst st) + 10 * Z.of_nat (length (enemy_hits i n j0 st)).
Proof.
  revert j0 st. induction n as [|n IH]; intros j0 st Hlo Hhi.
  - cbn [enemy_hits length]. unfold for_up. lia.
  - rewrite for_up_S. cbn [enemy_hits] in *. unfold enemy_body at 2.
    destruct (hit_test i j0 (fst st)) eqn:Hh.
    + destruct st as [game r]. cbn [fst] in *. cbn [length] in *.
      pose proof (score_on_hit i j0 game r Hh) as Hs.
      rewrite wrap_int_id in Hs by lia.
      rewrite IH; rewrite Hs; lia.
    + now apply IH.
Qed.

Lemma bullet_body_score i st :
  INT_MIN <= score (fst st) ->
  score (fst st) + 10 * Z.of_nat (length (bullet_hits i st)) <= INT_MAX ->
  score (fst (bullet_body i st))
  = score (fst st) + 10 * Z.of_nat (length (bullet_hits i st)).
Proof.
  unfold bullet_body, bullet_hits.
  destruct (bullets (fst st) !! i) as [b|]; [|cbn [length]; lia].
  destruct (active b); [|cbn [length]; lia].
  apply enemy_loop_score.
Qed.

Lemma collision_loop_score n i st :
  INT_MIN <= score (fst st) ->
  score (fst st) + 10 * Z.of_nat (length (collision_hits n i st)) <= INT_MAX ->
  score (fst (for_up bullet_body n i st))
  = score (fst st) + 10 * Z.of_nat (length (collision_hits n i st)).
Proof.
  revert i st. induction n as [|n IH]; intros i st Hlo Hhi.
  - cbn [collision_hits length]. unfold for_up. lia.
  - rewrite for_up_S. cbn [collision_hits] in *.
    rewrite length_app in *.
    pose proof (bullet_body_score i st Hlo ltac:(lia)) as Hs.
    rewrite IH; rewrite Hs; lia.
Qed.

Lemma score_player_body i game : score (player_body i game) = score game.
Proof.
  unfold player_body. destruct (enemies game !! i) as [e|]; [|reflexivity].
  now destruct (_ && _).
Qed.

Lemma score_CheckCollisions game r :
  INT_MIN <= score game ->
  score game + 10 * Z.of_nat (length (CheckCollisions_hits game r)) <= INT_MAX ->
  score (fst (CheckCollisions game r))
  = score game + 10 * Z.of_nat (length (CheckCollisions_hits game r)).
Proof.
  unfold CheckCollisions, CheckCollisions_hits.
  generalize MAX_BULLETS, MAX_ENEMIES. intros nb ne Hlo Hhi.
  pose proof (collision_loop_score nb 0 (game, r) Hlo Hhi) as Hs.
  revert Hs. generalize (for_up bullet_body nb 0 (game, r)).
  intros [g1 r1] Hs. cbn [fst] in *. rewrite <- Hs.
  apply (for_up_inv _ (fun g => score g = score g1)); [reflexivity|].
  intros k g Hg. now rewrite score_player_body.
Qed.

Lemma score_FireBullet inp game : score (FireBullet inp game) = score game.
Proof.
  unfold FireBullet. generalize (direction_to (GetMousePosition inp)
                                   (position (player game))).
  intros d. generalize 0%nat. generalize MAX_BULLETS.
  intros n. induction n as [|n IH]; intros i; cbn [FireBullet_scan]; [reflexivity|].
  destruct (bullets game !! i) as [b|]; [|apply IH].
  destruct (active b); cbn [negb]; [apply IH | reflexivity].
Qed.

Lemma score_UpdateBullets game dt : score (UpdateBullets game dt) = score game.
Proof.
  unfold UpdateBullets.
  apply (for_up_inv _ (fun g => score g = score game)); [reflexivity|].
  intros k g Hg. unfold UpdateBullets_body.
  destruct (bullets g !! k) as [b|]; [|exact Hg].
  destruct (active b); [|exact Hg].
  match goal with |- context [match ?o with _ => _ end] => destruct o as [b'|] end;
    [destruct (off_screen _)|]; exact Hg.
Qed.

Lemma score_UpdateEnemies game dt : score (UpdateEnemies game dt) = score game.
Proof.
  unfold UpdateEnemies.
  apply (for_up_inv _ (fun g => score g = score game)); [reflexivity|].
  intros k g Hg. unfold UpdateEnemies_body.
  destruct (enemies g !! k) as [e|]; [|exact Hg].
  destruct (active e); exact Hg.
Qed.

Lemma run_kills_step_fst cs st k :
  fst (foldl run_kills_step (st, k) cs) = run_calls cs st.
Proof.
  revert st k. induction cs as [|c cs IH]; intros st k; [reflexivity|].
  cbn [foldl run_kills_step]. unfold run_calls. cbn [foldl]. apply IH.
Qed.

Lemma run_score cs stack r :
  10 * run_kills cs (InitGame stack r) <= INT_MAX ->
  0 <= run_kills cs (InitGame stack r) /\
  score (fst (run_calls cs (InitGame stack r)))
  = 10 * run_kills cs (InitGame stack r).
Proof.
  unfold run_kills, run_calls.
  induction cs as [|[inp c] cs IH] using rev_ind.
  - cbn [foldl snd]. intros _. rewrite score_InitGame. lia.
  - rewrite !foldl_snoc.
    pose proof (run_kills_step_fst cs (InitGame stack r) 0) as E.
    unfold run_calls in E.
    destruct (foldl run_kills_step (InitGame stack r, 0) cs) as [[g r1] k].
    cbn [fst snd] in E, IH. rewrite <- E in IH |- *. cbn [fst] in IH.
    cbn [run_kills_step fst snd].
    destruct c; cbn [run_call fst snd]; intros Hhi.
    + rewrite score_InitGame. lia.
    + cbn [fst]. change (score (UpdatePlayer inp g (GetFrameTime inp))) with (score g).
      apply IH. exact Hhi.
    + cbn [fst]. rewrite score_FireBullet. apply IH, Hhi.
    + cbn [fst]. rewrite score_UpdateBullets. apply IH, Hhi.
    + cbn [fst]. rewrite score_UpdateEnemies. apply IH, Hhi.
    + destruct IH as [IH0 IH1]; [lia|].
      unfold INT_MIN, INT_MAX in *.
      rewrite score_CheckCollisions; unfold INT_MIN, INT_MAX; lia.
Qed.

(** C7, as amended.  The score is 0 after [InitGame]; [UpdatePlayer],
    [FireBullet], [UpdateBullets] and [UpdateEnemies] leave it unchanged;
    [CheckCollisions] adds exactly 10 per hit as long as the sum does not
    exceed [INT_MAX]; so in a run from [InitGame] the score is 10 times the
    number of hits since the last [InitGame], which is not negative and never
    decreases, as long as that product does not exceed [INT_MAX]. *)
Theorem score_counts_kills (game : GameState) (r : Rand) :
  (forall stack, score (fst (InitGame stack r)) = 0) /\
  (forall inp dt, score (UpdatePlayer inp game dt) = score game /\
                  score (FireBullet inp game) = score game /\
                  score (UpdateBullets game dt) = score game /\
                  score (UpdateEnemies game dt) = score game) /\
  (INT_MIN <= score game ->
   score game + 10 * Z.of_nat (length (CheckCollisions_hits game r)) <= INT_MAX ->
   score (fst (CheckCollisions game r))
   = score game + 10 * Z.of_nat (length (CheckCollisions_hits game r))) /\
  (forall cs stack,
     10 * run_kills cs (InitGame stack r) <= INT_MAX ->
     0 <= run_kills cs (InitGame stack r) /\
     score (fst (run_calls cs (InitGame stack r)))
     = 10 * run_kills cs (InitGame stack r)).
Proof.
  split; [intros; apply score_InitGame|].
  split; [intros inp dt; repeat split;
          [apply score_FireBullet|apply score_UpdateBullets|apply score_UpdateEnemies]|].
  split; [apply score_CheckCollisions|].
  intros cs stack. apply run_score.
Qed.

(** * The player stays on screen *)

Lemma movement_speed_finite inp :
  is_finite (fmul (x (normalize_diagonal (read_movement inp))) PLAYER_SPEED) = true /\
  is_finite (fmul (y (normalize_diagonal (read_movement inp))) PLAYER_SPEED) = true.
Proof.
  unfold read_movement.
  destruct (IsKeyDown inp KEY_W || IsKeyDown inp KEY_UP),
           (IsKeyDown inp KEY_S || IsKeyDown inp KEY_DOWN),
           (IsKeyDown inp KEY_A || IsKeyDown inp KEY_LEFT),
           (IsKeyDown inp KEY_D || IsKeyDown inp KEY_RIGHT);
    vm_compute; split; reflexivity.
Qed.

Lemma is_finite_not_nan a : is_finite a = true -> is_nan a = false.
Proof. now destruct a. Qed.

Lemma move_player_not_nan inp dt pos :
  is_finite (x pos) = true -> is_finite (y pos) = true -> is_finite dt = true ->
  let p := move_player (normalize_diagonal (read_movement inp)) dt pos in
  is_nan (x p) = false /\ is_nan (y p) = false.
Proof.
  intros Hx Hy Hdt. destruct (movement_speed_finite inp) as [Mx My].
  unfold move_player. cbn [x y set_x set_y]. split.
  - apply fadd_not_nan; [exact Hx|]. now apply fmul_not_nan.
  - apply fadd_not_nan; [exact Hy|]. now apply fmul_not_nan.
Qed.

Lemma clamp_axis rad hi v :
  is_nan v = false -> fle rad hi = true ->
  let v1 := if flt v rad then rad else v in
  let v2 := if flt hi v1 then hi else v1 in
  fle rad v2 = true /\ fle v2 hi = true.
Proof.
  intros Hv Hrh. destruct (fle_not_nan _ _ Hrh) as [Hr Hh]. cbn zeta.
  assert (H1 : fle rad (if flt v rad then rad else v) = true
               /\ is_nan (if flt v rad then rad else v) = false).
  { destruct (flt v rad) eqn:E; split; auto using fle_refl, flt_false_fle. }
  destruct H1 as [H1 N1].
  destruct (flt hi _) eqn:E2.
  - split; [exact Hrh | now apply fle_refl].
  - split; [exact H1 | now apply flt_false_fle].
Qed.

Lemma keep_on_screen_bounds rad pos :
  is_nan (x pos) = false -> is_nan (y pos) = false ->
  fle rad (fsub (of_int SCREEN_WIDTH) rad) = true ->
  fle rad (fsub (of_int SCREEN_HEIGHT) rad) = true ->
  let p := keep_on_screen rad pos in
  fle rad (x p) = true /\ fle (x p) (fsub (of_int SCREEN_WIDTH) rad) = true /\
  fle rad (y p) = true /\ fle (y p) (fsub (of_int SCREEN_HEIGHT) rad) = true.
Proof.
  intros Hx Hy Hw Hh.
  destruct (clamp_axis rad _ (x pos) Hx Hw) as [X1 X2].
  destruct (clamp_axis rad _ (y pos) Hy Hh) as [Y1 Y2].
  cbn zeta in *. unfold keep_on_screen. destruct pos as [px py].
  cbn [x y] in *.
  destruct (flt px rad); cbn [x y set_x set_y];
    destruct (flt (fsub (of_int SCREEN_WIDTH) rad) _); cbn [x y set_x set_y];
    destruct (flt py rad); cbn [x y set_x set_y] in *;
    destruct (flt (fsub (of_int SCREEN_HEIGHT) rad) _); cbn [x y set_x set_y];
    auto.
Qed.

Lemma UpdatePlayer_on_screen inp game dt :
  is_finite (x (position (player game))) = true ->
  is_finite (y (position (player game))) = true ->
  is_finite dt = true ->
  fle (radius (player game)) (fsub (of_int SCREEN_WIDTH) (radius (player game))) = true ->
  fle (radius (player game)) (fsub (of_int SCREEN_HEIGHT) (radius (player game))) = true ->
  on_screen (player (UpdatePlayer inp game dt)) /\
  radius (player (UpdatePlayer inp game dt)) = radius (player game).
Proof.
  intros Hx Hy Hdt Hw Hh.
  destruct (move_player_not_nan inp dt _ Hx Hy Hdt) as [Nx Ny].
  split; [|reflexivity].
  unfold on_screen, UpdatePlayer, upd_player.
  cbn [player set_player position set_position radius].
  now apply keep_on_screen_bounds.
Qed.

Lemma player_InitGame stack r :
  player (fst (InitGame stack r))
  = mkGameObject (mkVector2 (of_int 400) (of_int 300))
                 (mkVector2 (of_int 0) (of_int 0)) (of_int 20) true BLUE.
Proof.
  unfold InitGame.
  set (g0 := upd_player (set_color BLUE) _).
  set (g1 := for_up _ MAX_BULLETS 0 g0).
  assert (H1 : player g1 = player g0).
  { subst g1. apply (for_up_inv _ (fun g => player g = player g0)); [reflexivity|].
    intros k g Hg. exact Hg. }
  match goal with |- context [for_up ?b MAX_ENEMIES 0%nat (g1, r)] =>
    pose proof (for_up_inv b (fun s => player (fst s) = player g0)
                  MAX_ENEMIES 0 (g1, r) H1) as H2;
    destruct (for_up b MAX_ENEMIES 0%nat (g1, r)) as [g2 r2]
  end.
  cbn [fst player set_gameOver set_score] in *. apply H2.
  intros k [g r0] Hg.
  destruct (GetRandomValue 0 SCREEN_WIDTH r0) as [rx r1].
  destruct (GetRandomValue 0 SCREEN_HEIGHT r1) as [ry r3]. exact Hg.
Qed.

Lemma player_FireBullet inp game : player (FireBullet inp game) = player game.
Proof.
  unfold FireBullet. generalize (direction_to (GetMousePosition inp)
                                   (position (player game))).
  intros d. generalize 0%nat. generalize MAX_BULLETS.
  intros n. induction n as [|n IH]; intros i; cbn [FireBullet_scan]; [reflexivity|].
  destruct (bullets game !! i) as [b|]; [|apply IH].
  destruct (active b); cbn [negb]; [apply IH | reflexivity].
Qed.

Lemma player_UpdateBullets game dt : player (UpdateBullets game dt) = player game.
Proof.
  unfold UpdateBullets.
  apply (for_up_inv _ (fun g => player g = player game)); [reflexivity|].
  intros k g Hg. unfold UpdateBullets_body.
  destruct (bullets g !! k) as [b|]; [|exact Hg].
  destruct (active b); [|exact Hg].
  match goal with |- context [match ?o with _ => _ end] => destruct o as [b'|] end;
    [destruct (off_screen _)|]; exact Hg.
Qed.

Lemma player_UpdateEnemies game dt : player (UpdateEnemies game dt) = player game.
Proof.
  unfold UpdateEnemies.
  apply (for_up_inv _ (fun g => player g = player game)); [reflexivity|].
  intros k g Hg. unfold UpdateEnemies_body.
  destruct (enemies g !! k) as [e|]; [|exact Hg].
  destruct (active e); exact Hg.
Qed.

Lemma player_on_hit i j st : player (fst (on_hit i j st)) = player (fst st).
Proof.
  destruct st as [game r]. unfold on_hit.
  destruct (GetRandomValue 0 3 r) as [edge r1].
  match goal with |- context [match ?o with _ => _ end] => destruct o as [e|] end;
    [destruct (respawn_position _ _ _)|]; reflexivity.
Qed.

Lemma player_bullet_body i st : player (fst (bullet_body i st)) = player (fst st).
Proof.
  unfold bullet_body. destruct (bullets (fst st) !! i) as [b|]; [|reflexivity].
  destruct (active b); [|reflexivity].
  apply (for_up_inv _ (fun s => player (fst s) = player (fst st))); [reflexivity|].
  intros k s' Hs. unfold enemy_body. destruct (hit_test i k (fst s')); [|exact Hs].
  now rewrite player_on_hit.
Qed.

Lemma player_player_body i game : player (player_body i game) = player game.
Proof.
  unfold player_body. destruct (enemies game !! i) as [e|]; [|reflexivity].
  now destruct (_ && _).
Qed.

Lemma player_CheckCollisions game r :
  player (fst (CheckCollisions game r)) = player game.
Proof.
  unfold CheckCollisions. generalize MAX_BULLETS, MAX_ENEMIES. intros nb ne.
  assert (H1 : player (fst (for_up bullet_body nb 0 (game, r))) = player game).
  { apply (for_up_inv bullet_body (fun s => player (fst s) = player game));
      [reflexivity|].
    intros k s' Hs. now rewrite player_bullet_body. }
  revert H1. generalize (for_up bullet_body nb 0 (game, r)).
  intros [g1 r1] H1. cbn [fst] in *. rewrite <- H1.
  apply (for_up_inv _ (fun g => player g = player g1)); [reflexivity|].
  intros k g Hg. now rewrite player_player_body.
Qed.

Lemma on_screen_finite p :
  is_finite (radius p) = true ->
  is_finite (fsub (of_int SCREEN_WIDTH) (radius p)) = true ->
  is_finite (fsub (of_int SCREEN_HEIGHT) (radius p)) = true ->
  on_screen p ->
  is_finite (x (position p)) = true /\ is_finite (y (position p)) = true.
Proof.
  intros Hr Hw Hh (X1 & X2 & Y1 & Y2). split.
  - now apply (fle_is_finite (radius p) _ (fsub (of_int SCREEN_WIDTH) (radius p))).
  - now apply (fle_is_finite (radius p) _ (fsub (of_int SCREEN_HEIGHT) (radius p))).
Qed.

Lemma run_call_player_ok inp st c :
  is_finite (GetFrameTime inp) = true ->
  player_ok (fst st) -> player_ok (fst (run_call inp st c)).
Proof.
  destruct st as [game r]. cbn [fst]. intros Hdt [Hr Hs].
  destruct c; cbn [run_call fst]; unfold player_ok.
  - rewrite player_InitGame. split; [reflexivity|]. vm_compute. tauto.
  - destruct (on_screen_finite (player game)) as [Fx Fy];
      [rewrite Hr; reflexivity ..| exact Hs |].
    destruct (UpdatePlayer_on_screen inp game (GetFrameTime inp) Fx Fy Hdt)
      as [H1 H2]; [rewrite Hr; reflexivity ..|].
    split; [now rewrite H2 | exact H1].
  - now rewrite player_FireBullet.
  - now rewrite player_UpdateBullets.
  - now rewrite player_UpdateEnemies.
  - now rewrite player_CheckCollisions.
Qed.

(** C3.  After [UpdatePlayer] the player's position satisfies
    radius <= x <= 800 - radius and radius <= y <= 600 - radius, for every
    finite frame time (of either sign) and every state whose player has a
    finite position and a radius that fits the screen (radius <= 800 - radius
    and radius <= 600 - radius, as the radius 20 of [InitGame] does); hence
    in every run from [InitGame] with finite frame times the player has
    radius 20 and is on screen after every call. *)
Theorem player_stays_on_screen (inp : Input) (game : GameState) (dt : float) :
  (is_finite (x (position (player game))) = true ->
   is_finite (y (position (player game))) = true ->
   is_finite dt = true ->
   fle (radius (player game))
       (fsub (of_int SCREEN_WIDTH) (radius (player game))) = true ->
   fle (radius (player game))
       (fsub (of_int SCREEN_HEIGHT) (radius (player game))) = true ->
   on_screen (player (UpdatePlayer inp game dt))) /\
  (forall stack r cs,
     Forall finite_frame_time cs ->
     radius (player (fst (run_calls cs (InitGame stack r)))) = of_int 20 /\
     on_screen (player (fst (run_calls cs (InitGame stack r))))).
Proof.
  split.
  - intros Hx Hy Hdt Hw Hh.
    now destruct (UpdatePlayer_on_screen inp game dt Hx Hy Hdt Hw Hh).
  - intros stack r cs Hcs. change (player_ok (fst (run_calls cs (InitGame stack r)))).
    assert (H0 : player_ok (fst (InitGame stack r))).
    { unfold player_ok. rewrite player_InitGame. split; [reflexivity|].
      vm_compute. tauto. }
    revert H0. generalize (InitGame stack r). unfold run_calls.
    induction Hcs as [|[inp' c] cs Hc Hcs IH]; intros st H0; [exact H0|].
    cbn [foldl fst snd]. apply IH. now apply run_call_player_ok.
Qed.

(** * A bullet at rest *)

Lemma in_clamped_field_shape p :
  in_clamped_field p ->
  (exists mx ex, x p = S754_finite false mx ex) /\
  (exists my ey, y p = S754_finite false my ey) /\
  off_screen p = false.
Proof.
  intros (X1 & X2 & Y1 & Y2).
  assert (Sx : exists mx ex, x p = S754_finite false mx ex).
  { destruct (x p) as [s|s| |s m e]; try discriminate.
    - destruct s; discriminate.
    - destruct s; [discriminate|eauto]. }
  assert (Sy : exists my ey, y p = S754_finite false my ey).
  { destruct (y p) as [s|s| |s m e]; try discriminate.
    - destruct s; discriminate.
    - destruct s; [discriminate|eauto]. }
  split; [exact Sx|]. split; [exact Sy|].
  unfold off_screen.
  rewrite (fle_flt_false (of_int 0) (x p))
    by (apply (fle_trans _ (of_int 20)); [reflexivity | exact X1]).
  rewrite (fle_flt_false (x p) (of_int SCREEN_WIDTH))
    by (apply (fle_trans _ (of_int 780)); [exact X2 | reflexivity]).
  rewrite (fle_flt_false (of_int 0) (y p))
    by (apply (fle_trans _ (of_int 20)); [reflexivity | exact Y1]).
  rewrite (fle_flt_false (y p) (of_int SCREEN_HEIGHT))
    by (apply (fle_trans _ (of_int 580)); [exact Y2 | reflexivity]).
  reflexivity.
Qed.

Lemma direction_to_self p :
  is_finite (x p) = true -> is_finite (y p) = true ->
  direction_to p p = mkVector2 (S754_zero false) (S754_zero false).
Proof.
  intros Hx Hy. unfold direction_to. cbn [x y].
  rewrite (fsub_diag _ Hx), (fsub_diag _ Hy). reflexivity.
Qed.

Lemma bullets_UpdatePlayer inp game dt :
  bullets (UpdatePlayer inp game dt) = bullets game.
Proof. reflexivity. Qed.

Lemma bullets_UpdateEnemies game dt :
  bullets (UpdateEnemies game dt) = bullets game.
Proof.
  unfold UpdateEnemies.
  apply (for_up_inv _ (fun g => bullets g = bullets game)); [reflexivity|].
  intros k g Hg. unfold UpdateEnemies_body.
  destruct (enemies g !! k) as [e|]; [|exact Hg].
  destruct (active e); exact Hg.
Qed.

Lemma FireBullet_scan_keeps_active d n i0 game i b :
  bullets game !! i = Some b -> active b = true ->
  bullets (FireBullet_scan d n i0 game) !! i = Some b.
Proof.
  intros Hb Ha. revert i0. induction n as [|n IH]; intros i0;
    cbn [FireBullet_scan]; [exact Hb|].
  destruct (bullets game !! i0) as [b0|] eqn:Hb0; [|apply IH].
  destruct (active b0) eqn:Ha0; cbn [negb]; [apply IH|].
  assert (i0 <> i) by (intros ->; congruence).
  unfold upd_bullet, set_bullets. cbn [bullets].
  now rewrite !list_lookup_alter_ne.
Qed.

Lemma UpdateBullets_body_other dt k game i :
  k <> i -> bullets (UpdateBullets_body dt k game) !! i = bullets game !! i.
Proof.
  intros Hne. unfold UpdateBullets_body.
  destruct (bullets game !! k) as [b|]; [|reflexivity].
  destruct (active b); [|reflexivity].
  match goal with |- context [match ?o with _ => _ end] => destruct o as [b'|] end;
    [destruct (off_screen _)|];
    unfold upd_bullet, set_bullets; cbn [bullets];
    now rewrite !list_lookup_alter_ne.
Qed.

Lemma UpdateBullets_body_resting dt game i p b :
  is_finite dt = true -> in_clamped_field p ->
  bullets game !! i = Some (resting_bullet p b) ->
  bullets (UpdateBullets_body dt i game) !! i = Some (resting_bullet p b).
Proof.
  intros Hdt Hp Hb. destruct (in_clamped_field_shape p Hp)
    as ((mx & ex & Hx) & (my & ey & Hy) & Hoff).
  destruct (fmul_zero_l dt Hdt) as [sz Hz].
  unfold UpdateBullets_body. rewrite Hb.
  change (active (resting_bullet p b)) with true. cbv iota.
  match goal with |- context [bullets ?g !! i] =>
    match g with upd_bullet _ _ _ => set (g2 := g) end end.
  assert (H2 : bullets g2 !! i = Some (resting_bullet p b)).
  { subst g2. unfold upd_bullet, set_bullets. cbn [bullets].
    rewrite list_alter_alter_eq, list_lookup_alter_eq, Hb.
    cbn [fmap option_fmap option_map]. f_equal.
    unfold compose, resting_bullet, set_position, set_x, set_y.
    cbn [position velocity radius active color x y]. rewrite Hz.
    destruct p as [px py]. cbn [x y] in *. subst px py. reflexivity. }
  rewrite H2. change (position (resting_bullet p b)) with p.
  rewrite Hoff. exact H2.
Qed.

Lemma UpdateBullets_resting dt game i p b :
  is_finite dt = true -> in_clamped_field p ->
  bullets game !! i = Some (resting_bullet p b) ->
  bullets (UpdateBullets game dt) !! i = Some (resting_bullet p b).
Proof.
  intros Hdt Hp Hb. unfold UpdateBullets.
  apply (for_up_inv _ (fun g => bullets g !! i = Some (resting_bullet p b)));
    [exact Hb|].
  intros k g Hg. destruct (decide (k = i)) as [->|Hne].
  - now apply UpdateBullets_body_resting.
  - now rewrite UpdateBullets_body_other.
Qed.

(** C5.  A bullet fired with the aim point on the player, the player being
    in the clamped field, has velocity exactly (+0, +0) and the player's
    position; it keeps that position and stays active through any sequence
    of [UpdateBullets] calls with finite frame times, and through any
    sequence of calls other than [CheckCollisions] and [InitGame]. *)
Theorem zero_velocity_bullet_stays (inp : Input) (game : GameState)
    (i : nat) (b : GameObject) :
  in_clamped_field (position (player game)) ->
  GetMousePosition inp = position (player game) ->
  (i < MAX_BULLETS)%nat ->
  bullets game !! i = Some b -> active b = false ->
  (forall k b', (k < i)%nat -> bullets game !! k = Some b' -> active b' = true) ->
  bullets (FireBullet inp game) !! i
    = Some (resting_bullet (position (player game)) b) /\
  (forall dts,
     Forall (fun dt => is_finite dt = true) dts ->
     bullets (foldl UpdateBullets (FireBullet inp game) dts) !! i
       = Some (resting_bullet (position (player game)) b)) /\
  (forall cs r,
     Forall (fun c => finite_frame_time c /\
                      no_collision_or_reset (snd c) = true) cs ->
     bullets (fst (run_calls cs (FireBullet inp game, r))) !! i
       = Some (resting_bullet (position (player game)) b)).
Proof.
  intros Hp Hmouse Hi Hb Ha Hfirst.
  destruct (in_clamped_field_shape _ Hp) as ((mx & ex & Hx) & (my & ey & Hy) & _).
  assert (H0 : bullets (FireBullet inp game) !! i
               = Some (resting_bullet (position (player game)) b)).
  { rewrite (FireBullet_first_free inp game i b Hi Hb Ha Hfirst).
    cbn [bullets set_bullets].
    rewrite list_lookup_insert_eq by (now apply lookup_lt_Some in Hb).
    unfold fired_bullet, resting_bullet. rewrite Hmouse.
    rewrite direction_to_self by (rewrite ?Hx, ?Hy; reflexivity).
    reflexivity. }
  split; [exact H0|]. split.
  - intros dts Hdts. revert H0. generalize (FireBullet inp game).
    induction Hdts as [|dt dts Hdt Hdts IH]; intros g Hg; [exact Hg|].
    cbn [foldl]. apply IH. now apply UpdateBullets_resting.
  - intros cs r Hcs. revert H0. generalize (FireBullet inp game). revert r.
    unfold run_calls.
    induction Hcs as [|[inp' c] cs [Hdt Hc] Hcs IH]; intros r g Hg; [exact Hg|].
    cbn [foldl fst snd] in *. unfold finite_frame_time in Hdt. cbn [fst] in Hdt.
    destruct c; try discriminate; cbn [run_call]; apply IH.
    + exact Hg.
    + apply FireBullet_scan_keeps_active; [exact Hg | reflexivity].
    + now apply UpdateBullets_resting.
    + now rewrite bullets_UpdateEnemies.
Qed.

(** C8, as amended.  When both components of the movement vector are
    non-zero, [UpdatePlayer] scales each by the constant [0.707f] before
    multiplying by the speed 200 and the frame time, then clamps. *)
Theorem diagonal_scale_is_0_707 (inp : Input) (game : GameState) (dt : float) :
  fne (x (read_movement inp)) (of_int 0) = true ->
  fne (y (read_movement inp)) (of_int 0) = true ->
  normalize_diagonal (read_movement inp)
    = mkVector2 (fmul (x (read_movement inp)) lit_0_707)
                (fmul (y (read_movement inp)) lit_0_707) /\
  position (player (UpdatePlayer inp game dt))
    = keep_on_screen (radius (player game))
        (mkVector2
           (fadd (x (position (player game)))
                 (fmul (fmul (fmul (x (read_movement inp)) lit_0_707)
                             PLAYER_SPEED) dt))
           (fadd (y (position (player game)))
                 (fmul (fmul (fmul (y (read_movement inp)) lit_0_707)
                             PLAYER_SPEED) dt))).
Proof.
  intros Hx Hy.
  assert (E : normalize_diagonal (read_movement inp)
              = mkVector2 (fmul (x (read_movement inp)) lit_0_707)
                          (fmul (y (read_movement inp)) lit_0_707)).
  { unfold normalize_diagonal. rewrite Hx, Hy. reflexivity. }
  split; [exact E|].
  unfold UpdatePlayer, upd_player, move_player.
  cbn [player set_player position set_position radius].
  rewrite E. reflexivity.
Qed.

(** * Respawned enemies and the player *)

Lemma fsub_finite_not_nan (a b : float) :
  is_finite a = true -> is_nan b = false -> is_nan (fsub a b) = false.
Proof.
  destruct a as [sa|sa| |sa ma ea]; try discriminate;
  destruct b as [sb|sb| |sb mb eb]; try discriminate; intros _ _;
    try reflexivity; try (destruct sa, sb; reflexivity).
  unfold fsub, SFsub. apply binary_normalize_not_nan.
Qed.

Lemma square_gap_sign (m : positive) (e k : Z) :
  sign_of (fmul (fsub (S754_finite false m e) (of_int k))
                (fsub (S754_finite false m e) (of_int k))) = Some false.
Proof.
  apply fmul_self_sign, fsub_finite_not_nan; [reflexivity|].
  apply binary_normalize_not_nan.
Qed.

Lemma far_from_edge (p q : Vector2) :
  valid (x p) -> valid (y p) -> in_clamped_field p -> in_edge_band q ->
  big (-17) (distance p q).
Proof.
  intros Vx Vy (X1 & X2 & Y1 & Y2) (k & Hq).
  change (of_int 780) with (S754_finite false 12779520 (-14)) in X2.
  change (of_int 580) with (S754_finite false 9502720 (-14)) in Y2.
  destruct (coordinate_shape _ _ Vx X1 X2) as (mx & ex & Ex & Mx & Rx & Lx & Hx).
  destruct (coordinate_shape _ _ Vy Y1 Y2) as (my & ey & Ey & My & Ry & Ly & Hy).
  unfold distance. rewrite Ex, Ey.
  assert (T : emin32 <= -11) by (unfold emin32; lia).
  destruct Hq as [(_ & ->)|[(_ & ->)|[(_ & ->)|(_ & ->)]]]; cbn [x y];
    apply big_sqrt.
  - change (of_int (-50)) with (S754_finite true 13107200 (-18)).
    apply (big_add _ _ _ T (square_gap_sign mx ex k)), big_square.
    apply (gap_to_edge _ _ _ _ _ 9502720); auto.
  - change (of_int 850) with (S754_finite false 13926400 (-14)).
    apply (big_add _ _ _ T (square_gap_sign my ey k)), big_square.
    apply (gap_to_edge _ _ _ _ _ 12779520); auto. right. repeat split; lia.
  - change (of_int 650) with (S754_finite false 10649600 (-14)).
    apply (big_add _ _ _ T (square_gap_sign mx ex k)), big_square.
    apply (gap_to_edge _ _ _ _ _ 9502720); auto. right. repeat split; lia.
  - change (of_int (-50)) with (S754_finite true 13107200 (-18)).
    apply (big_add _ _ _ T (square_gap_sign my ey k)), big_square.
    apply (gap_to_edge _ _ _ _ _ 12779520); auto.
Qed.

Lemma edge_enemy_misses_player game e :
  player_in_field game -> enemy_radius_15 e -> in_edge_band (position e) ->
  flt (distance (position (player game)) (position e))
      (fadd (radius (player game)) (radius e)) = false.
Proof.
  intros (Vx & Vy & Hf & Hr) He Hb. rewrite Hr, He.
  apply big_not_lt_35. now apply far_from_edge.
Qed.

Lemma player_body_edge_enemy game j e :
  player_in_field game -> enemies game !! j = Some e ->
  enemy_radius_15 e -> in_edge_band (position e) ->
  player_body j game = game.
Proof.
  intros Hp Hj He Hb. unfold player_body. rewrite Hj.
  rewrite (edge_enemy_misses_player game e Hp He Hb).
  now rewrite andb_false_r.
Qed.

Lemma on_hit_keeps_radius i j game r :
  hit_test i j game = true ->
  Forall enemy_radius_15 (enemies game) ->
  Forall enemy_radius_15 (enemies (fst (on_hit i j (game, r)))).
Proof.
  intros H Hall. destruct (hit_test_enemy _ _ _ H) as (e & He & _).
  rewrite (on_hit_spec _ _ _ _ _ He). cbn [fst enemies].
  apply Forall_insert; [exact Hall|].
  exact (proj1 (Forall_lookup _ _) Hall j e He).
Qed.

Lemma bullet_pass_keeps_radius n i st :
  Forall enemy_radius_15 (enemies (fst st)) ->
  Forall enemy_radius_15 (enemies (fst (for_up bullet_body n i st))).
Proof.
  intros H0.
  apply (for_up_inv bullet_body
           (fun s => Forall enemy_radius_15 (enemies (fst s)))); [exact H0|].
  intros k s Hs. unfold bullet_body.
  destruct (bullets (fst s) !! k) as [b|]; [|exact Hs].
  destruct (active b); [|exact Hs].
  apply (for_up_inv (enemy_body k)
           (fun s => Forall enemy_radius_15 (enemies (fst s)))); [exact Hs|].
  intros j [g r] Hg. unfold enemy_body. cbn [fst] in *.
  destruct (hit_test k j g) eqn:Hh; [|exact Hg].
  now apply on_hit_keeps_radius.
Qed.

Lemma bullet_pass_keeps_player n i st :
  player (fst (for_up bullet_body n i st)) = player (fst st).
Proof.
  apply (for_up_inv bullet_body (fun s => player (fst s) = player (fst st)));
    [reflexivity|].
  intros k s Hs. now rewrite player_bullet_body.
Qed.

Lemma player_pass_game_over n i g0 g :
  player g = player g0 -> enemies g = enemies g0 ->
  player_in_field g0 -> Forall enemy_radius_15 (enemies g0) ->
  gameOver (for_up player_body n i g) = true ->
  gameOver g = true \/
  exists j e, enemies g0 !! j = Some e /\ ~ in_edge_band (position e).
Proof.
  intros Hp He Hf Hr.
  pose proof (for_up_inv player_body
    (fun s => player s = player g0 /\ enemies s = enemies g0 /\
              (gameOver s = true -> gameOver g = true \/
               exists j e, enemies g0 !! j = Some e /\
                           ~ in_edge_band (position e))) n i g) as H.
  apply H; [auto|]. clear H.
  intros k s (Hsp & Hse & Hs). unfold player_body. rewrite Hse.
  destruct (enemies g0 !! k) as [e|] eqn:Hk; [|rewrite <- Hse at 1; auto].
  destruct (_ && _) eqn:Ht; [|rewrite <- Hse at 1; auto].
  cbn [player enemies gameOver set_gameOver]. repeat split; auto.
  intros _. right. exists k, e. split; [exact Hk|]. intros Hb.
  apply andb_true_iff in Ht as [_ Ht]. rewrite Hsp in Ht.
  rewrite (edge_enemy_misses_player g0 e Hf) in Ht; [discriminate| |exact Hb].
  exact (proj1 (Forall_lookup _ _) Hr k e Hk).
Qed.

Lemma bullet_pass_keeps_gameOver n i st :
  gameOver (fst (for_up bullet_body n i st)) = gameOver (fst st).
Proof.
  apply (for_up_inv bullet_body (fun s => gameOver (fst s) = gameOver (fst st)));
    [reflexivity|].
  intros k s Hs. rewrite <- Hs. unfold bullet_body.
  destruct (bullets (fst s) !! k) as [b|]; [|reflexivity].
  destruct (active b); [|reflexivity].
  apply (for_up_inv (enemy_body k) (fun s' => gameOver (fst s') = gameOver (fst s)));
    [reflexivity|].
  intros j [g r0] Hg. unfold enemy_body. cbn [fst] in *.
  destruct (hit_test k j g) eqn:Hh; [|exact Hg].
  destruct (hit_test_enemy _ _ _ Hh) as (e & He & _).
  now rewrite (on_hit_spec _ _ _ _ _ He).
Qed.

Lemma new_game_over_needs_field_enemy game r :
  player_in_field game -> Forall enemy_radius_15 (enemies game) ->
  gameOver game = false ->
  gameOver (fst (CheckCollisions game r)) = true ->
  exists j e,
    enemies (fst (for_up bullet_body MAX_BULLETS 0 (game, r))) !! j = Some e /\
    ~ in_edge_band (position e).
Proof.
  intros Hp Hr Hg0. unfold CheckCollisions.
  generalize MAX_BULLETS, MAX_ENEMIES. intros nb ne.
  pose proof (bullet_pass_keeps_player nb 0 (game, r)) as Hp1.
  pose proof (bullet_pass_keeps_radius nb 0 (game, r) Hr) as Hr1.
  pose proof (bullet_pass_keeps_gameOver nb 0 (game, r)) as Hgo.
  revert Hp1 Hr1 Hgo. generalize (for_up bullet_body nb 0 (game, r)).
  intros [g1 r1] Hp1 Hr1 Hgo Hg1. cbn [fst snd] in *.
  assert (Hf : player_in_field g1) by (unfold player_in_field; now rewrite Hp1).
  destruct (player_pass_game_over ne 0 g1 g1 eq_refl eq_refl Hf Hr1 Hg1)
    as [H|H]; [|exact H].
  rewrite Hgo, Hg0 in H. discriminate.
Qed.

Lemma hit_enemy_misses_player game r i j :
  player_in_field game -> Forall enemy_radius_15 (enemies game) ->
  In (i, j) (CheckCollisions_hits game r) ->
  player_body j (fst (for_up bullet_body MAX_BULLETS 0 (game, r)))
  = fst (for_up bullet_body MAX_BULLETS 0 (game, r)).
Proof.
  intros Hp Hr. unfold CheckCollisions_hits.
  generalize MAX_BULLETS. intros nb Hin.
  pose proof (bullet_pass_keeps_player nb 0 (game, r)) as Hp1.
  pose proof (bullet_pass_keeps_radius nb 0 (game, r) Hr) as Hr1.
  pose proof (collision_loop_banded nb 0 (game, r) (i, j) Hin) as Hb.
  revert Hp1 Hr1 Hb. generalize (for_up bullet_body nb 0 (game, r)).
  intros [g1 r1] Hp1 Hr1 (e & He & _ & Hb). cbn [fst snd] in *.
  assert (Hf : player_in_field g1) by (unfold player_in_field; now rewrite Hp1).
  apply (player_body_edge_enemy g1 j e Hf He); [|exact Hb].
  exact (proj1 (Forall_lookup _ _) Hr1 j e He).
Qed.

(** C10.  With the player in the clamped field [20,780] x [20,580] (radius
    20) and enemies of radius 15, an enemy in a respawn band is never within
    the radius sum of the player: the test of the player-enemy pass is false
    for it and its iteration leaves the state, hence the game-over flag,
    unchanged.  So the iteration of every enemy hit in the same call changes
    nothing, and a call that sets the flag has an enemy outside the bands
    after its bullet pass. *)
Theorem respawned_enemy_spares_player (game : GameState) (r : Rand) :
  player_in_field game ->
  Forall enemy_radius_15 (enemies game) ->
  (forall j e, enemies game !! j = Some e -> in_edge_band (position e) ->
     flt (distance (position (player game)) (position e))
         (fadd (radius (player game)) (radius e)) = false /\
     player_body j game = game) /\
  (forall i j, In (i, j) (CheckCollisions_hits game r) ->
     player_body j (fst (for_up bullet_body MAX_BULLETS 0 (game, r)))
     = fst (for_up bullet_body MAX_BULLETS 0 (game, r))) /\
  (gameOver game = false ->
   gameOver (fst (CheckCollisions game r)) = true ->
   exists j e,
     enemies (fst (for_up bullet_body MAX_BULLETS 0 (game, r))) !! j = Some e /\
     ~ in_edge_band (position e)).
Proof.
  intros Hp Hr. split; [|split].
  - intros j e Hj Hb.
    pose proof (proj1 (Forall_lookup _ _) Hr j e Hj) as He.
    split; [exact (edge_enemy_misses_player game e Hp He Hb)
           | exact (player_body_edge_enemy game j e Hp Hj He Hb)].
  - intros i j. exact (hit_enemy_misses_player game r i j Hp Hr).
  - exact (new_game_over_needs_field_enemy game r Hp Hr).
Qed.

(** * Loops that update every slot are maps *)

Lemma for_up_ext {St : Type} (f g : nat -> St -> St) (P : St -> Prop) n i s :
  P s -> (forall k s', P s' -> f k s' = g k s' /\ P (g k s')) ->
  for_up f n i s = for_up g n i s.
Proof.
  intros Hs H. revert i s Hs. induction n as [|n IH]; intros i s Hs; [reflexivity|].
  rewrite !for_up_S. destruct (H i s Hs) as [E Hg]. rewrite E. now apply IH.
Qed.

Lemma alter_loop_lookup {A : Type} (f : A -> A) n : forall i0 (l : list A) k,
  for_up (fun i l => alter f i l) n i0 l !! k
  = if decide (i0 <= k < i0 + n)%nat then f <$> l !! k else l !! k.
Proof.
  induction n as [|n IH]; intros i0 l k.
  - unfold for_up. destruct (decide _); [lia | reflexivity].
  - rewrite for_up_S, IH.
    destruct (decide (k = i0)) as [->|Hne].
    + rewrite list_lookup_alter_eq.
      destruct (decide (S i0 <= i0 < S i0 + n)%nat); [lia|].
      destruct (decide (i0 <= i0 < i0 + S n)%nat); [reflexivity | lia].
    + rewrite list_lookup_alter_ne by congruence.
      destruct (decide (S i0 <= k < S i0 + n)%nat),
               (decide (i0 <= k < i0 + S n)%nat); try reflexivity; lia.
Qed.

Lemma alter_loop_map {A : Type} (f : A -> A) n (l : list A) :
  (length l <= n)%nat -> for_up (fun i l => alter f i l) n 0 l = f <$> l.
Proof.
  intros Hn. apply list_eq. intros k.
  rewrite alter_loop_lookup, list_lookup_fmap.
  destruct (decide _) as [|Hk]; [reflexivity|].
  rewrite (lookup_ge_None_2 l k) by lia. reflexivity.
Qed.

Lemma set_bullets_id g : set_bullets (bullets g) g = g.
Proof. now destruct g. Qed.

Lemma set_enemies_id g : set_enemies (enemies g) g = g.
Proof. now destruct g. Qed.

Lemma upd_bullet_loop f n : forall i0 g,
  for_up (fun i g => upd_bullet i f g) n i0 g
  = set_bullets (for_up (fun i l => alter f i l) n i0 (bullets g)) g.
Proof.
  induction n as [|n IH]; intros i0 g.
  - unfold for_up. now rewrite set_bullets_id.
  - rewrite !for_up_S, IH. reflexivity.
Qed.

Lemma upd_enemy_loop f n : forall i0 g,
  for_up (fun i g => upd_enemy i f g) n i0 g
  = set_enemies (for_up (fun i l => alter f i l) n i0 (enemies g)) g.
Proof.
  induction n as [|n IH]; intros i0 g.
  - unfold for_up. now rewrite set_enemies_id.
  - rewrite !for_up_S, IH. reflexivity.
Qed.

Lemma alter_same {A : Type} (f : A -> A) i (l : list A) :
  (forall a, l !! i = Some a -> f a = a) -> alter f i l = l.
Proof.
  intros H. apply list_eq. intros k. destruct (decide (k = i)) as [->|Hne].
  - rewrite list_lookup_alter_eq. destruct (l !! i) as [a|] eqn:E; [|reflexivity].
    cbn. now rewrite H.
  - now rewrite list_lookup_alter_ne by congruence.
Qed.

Lemma UpdateBullets_body_slot dt i game :
  UpdateBullets_body dt i game = upd_bullet i (advance_bullet dt) game.
Proof.
  unfold UpdateBullets_body, upd_bullet.
  destruct (bullets game !! i) as [b|] eqn:Hb.
  - destruct (active b) eqn:Ha.
    + cbn [bullets set_bullets]. rewrite list_alter_alter_eq, list_lookup_alter_eq, Hb.
      cbn [fmap option_fmap option_map].
      unfold compose, set_position, set_x, set_y.
      cbn [position velocity radius active color x y].
      destruct (off_screen _) eqn:Hoff; unfold set_bullets; cbn [bullets player enemies score gameOver];
        f_equal; rewrite ?list_alter_alter_eq; apply list_alter_ext; try reflexivity;
        intros b0 Hb0; rewrite Hb in Hb0; injection Hb0 as <-;
        unfold advance_bullet, compose, set_position, set_x, set_y, set_active;
        cbn [position velocity radius active color x y]; rewrite Ha, Hoff; reflexivity.
    + rewrite alter_same; [now rewrite set_bullets_id|].
      intros a Ha'. rewrite Hb in Ha'. injection Ha' as <-.
      unfold advance_bullet. now rewrite Ha.
  - rewrite alter_same; [now rewrite set_bullets_id|]. intros a Ha. congruence.
Qed.

(** X4.  [UpdateBullets] acts on each slot on its own: an inactive bullet is
    unchanged, an active one moves by velocity times frame time and stays
    active exactly when the new position is not off screen; nothing but the
    bullets changes. *)
Theorem UpdateBullets_is_map (game : GameState) (dt : float) :
  (length (bullets game) <= MAX_BULLETS)%nat ->
  UpdateBullets game dt
  = set_bullets (map (advance_bullet dt) (bullets game)) game.
Proof.
  intros Hlen. unfold UpdateBullets. revert Hlen. generalize MAX_BULLETS.
  intros n Hlen.
  rewrite (for_up_ext _ (fun i g => upd_bullet i (advance_bullet dt) g)
             (fun _ => True)); [|exact I|].
  - rewrite upd_bullet_loop. f_equal. now apply alter_loop_map.
  - intros k s _. split; [apply UpdateBullets_body_slot | exact I].
Qed.

Lemma UpdateEnemies_body_slot dt i game :
  UpdateEnemies_body dt i game
  = upd_enemy i (chase (position (player game)) dt) game.
Proof.
  unfold UpdateEnemies_body, upd_enemy.
  destruct (enemies game !! i) as [e|] eqn:He.
  - destruct (active e) eqn:Ha.
    + cbn [enemies set_enemies player]. unfold set_enemies.
      cbn [bullets player enemies score gameOver]. f_equal.
      rewrite list_alter_alter_eq. apply list_alter_ext; [|reflexivity].
      intros e0 He0. rewrite He in He0. injection He0 as <-.
      unfold chase, compose, set_position, set_x, set_y.
      cbn [position velocity radius active color x y]. rewrite Ha. reflexivity.
    + rewrite alter_same; [now rewrite set_enemies_id|].
      intros a Ha'. rewrite He in Ha'. injection Ha' as <-.
      unfold chase. now rewrite Ha.
  - rewrite alter_same; [now rewrite set_enemies_id|]. intros a Ha. congruence.
Qed.

(** The loop of [UpdateEnemies] as a map over the enemies. *)
Lemma UpdateEnemies_map (game : GameState) (dt : float) :
  (length (enemies game) <= MAX_ENEMIES)%nat ->
  UpdateEnemies game dt
  = set_enemies (map (chase (position (player game)) dt) (enemies game)) game.
Proof.
  intros Hlen. unfold UpdateEnemies. revert Hlen. generalize MAX_ENEMIES.
  intros n Hlen.
  rewrite (for_up_ext _ (fun i g => upd_enemy i (chase (position (player game)) dt) g)
             (fun g => player g = player game)); [|reflexivity|].
  - rewrite upd_enemy_loop. f_equal. now apply alter_loop_map.
  - intros k s Hs. split; [|exact Hs].
    rewrite UpdateEnemies_body_slot. now rewrite Hs.
Qed.

(** X5.  [UpdateEnemies] acts on each slot on its own, every enemy chasing
    the player's position of the start of the call: slot [j] of the result
    is [chase] of slot [j], and the player, the bullets, the score and the
    game-over flag are unchanged. *)
Theorem UpdateEnemies_is_map (game : GameState) (dt : float) :
  (length (enemies game) <= MAX_ENEMIES)%nat ->
  UpdateEnemies game dt
  = set_enemies (map (chase (position (player game)) dt) (enemies game)) game
  /\ (forall j, enemies (UpdateEnemies game dt) !! j
                = chase (position (player game)) dt <$> enemies game !! j)
  /\ player (UpdateEnemies game dt) = player game
  /\ bullets (UpdateEnemies game dt) = bullets game
  /\ score (UpdateEnemies game dt) = score game
  /\ gameOver (UpdateEnemies game dt) = gameOver game.
Proof.
  intros Hlen. rewrite (UpdateEnemies_map game dt Hlen).
  split; [reflexivity|]. split; [|now destruct game].
  intros j. cbn [enemies set_enemies]. destruct game. apply list_lookup_fmap.
Qed.

(** * Array sizes, bullets in flight *)

Lemma length_bullets_FireBullet inp game :
  length (bullets (FireBullet inp game)) = length (bullets game).
Proof.
  unfold FireBullet. generalize (direction_to (GetMousePosition inp)
                                   (position (player game))).
  intros d. generalize 0%nat. generalize MAX_BULLETS.
  intros n. induction n as [|n IH]; intros i; cbn [FireBullet_scan]; [reflexivity|].
  destruct (bullets game !! i) as [b|]; [|apply IH].
  destruct (active b); cbn [negb]; [apply IH|].
  unfold upd_bullet, set_bullets. cbn [bullets]. now rewrite !length_alter.
Qed.

Lemma length_bullets_UpdateBullets game dt :
  length (bullets (UpdateBullets game dt)) = length (bullets game).
Proof.
  unfold UpdateBullets.
  apply (for_up_inv _ (fun g => length (bullets g) = length (bullets game)));
    [reflexivity|].
  intros k g Hg. rewrite UpdateBullets_body_slot. unfold upd_bullet, set_bullets.
  cbn [bullets]. now rewrite length_alter.
Qed.

Lemma length_bullets_on_hit i j st :
  length (bullets (fst (on_hit i j st))) = length (bullets (fst st)).
Proof.
  destruct st as [game r]. unfold on_hit.
  destruct (GetRandomValue 0 3 r) as [edge r1].
  match goal with |- context [match ?o with _ => _ end] => destruct o as [e|] end;
    [destruct (respawn_position _ _ _)|];
    unfold upd_enemy, upd_bullet, set_enemies, set_bullets, set_score;
    cbn [fst bullets]; now rewrite length_alter.
Qed.

Lemma length_bullets_CheckCollisions game r :
  length (bullets (fst (CheckCollisions game r))) = length (bullets game).
Proof.
  unfold CheckCollisions. generalize MAX_BULLETS, MAX_ENEMIES. intros nb ne.
  assert (H1 : length (bullets (fst (for_up bullet_body nb 0 (game, r))))
               = length (bullets game)).
  { apply (for_up_inv bullet_body
             (fun s => length (bullets (fst s)) = length (bullets game)));
      [reflexivity|].
    intros k s Hs. unfold bullet_body.
    destruct (bullets (fst s) !! k) as [b|]; [|exact Hs].
    destruct (active b); [|exact Hs].
    apply (for_up_inv (enemy_body k)
             (fun s' => length (bullets (fst s')) = length (bullets game)));
      [exact Hs|].
    intros j s' Hs'. unfold enemy_body. destruct (hit_test k j (fst s')); [|exact Hs'].
    now rewrite length_bullets_on_hit. }
  revert H1. generalize (for_up bullet_body nb 0 (game, r)).
  intros [g1 r1] H1. cbn [fst] in *. rewrite <- H1.
  apply (for_up_inv _ (fun g => length (bullets g) = length (bullets g1)));
    [reflexivity|].
  intros k g Hg. unfold player_body. destruct (enemies g !! k) as [e|]; [|exact Hg].
  now destruct (_ && _).
Qed.

Lemma length_bullets_InitGame stack r :
  length (bullets (fst (InitGame stack r))) = length (bullets stack).
Proof.
  unfold InitGame. generalize MAX_BULLETS, MAX_ENEMIES. intros nb ne.
  set (g0 := upd_player (set_color BLUE) _).
  set (g1 := for_up _ nb 0 g0).
  assert (H1 : length (bullets g1) = length (bullets stack)).
  { subst g1. apply (for_up_inv _ (fun g => length (bullets g) = length (bullets stack)));
      [reflexivity|].
    intros k g Hg. unfold upd_bullet, set_bullets. cbn [bullets].
    now rewrite !length_alter. }
  match goal with |- context [for_up ?b ne 0%nat (g1, r)] =>
    pose proof (for_up_inv b (fun s => length (bullets (fst s)) = length (bullets stack))
                  ne 0 (g1, r) H1) as H2;
    destruct (for_up b ne 0%nat (g1, r)) as [g2 r2]
  end.
  cbn [fst bullets set_gameOver set_score] in *. apply H2.
  intros k [g r0] Hg.
  destruct (GetRandomValue 0 SCREEN_WIDTH r0) as [rx r1].
  destruct (GetRandomValue 0 SCREEN_HEIGHT r1) as [ry r3]. exact Hg.
Qed.

Lemma run_call_well_formed inp st c :
  well_formed (fst st) -> well_formed (fst (run_call inp st c)).
Proof.
  destruct st as [game r]. cbn [fst]. intros [Hb He]. unfold well_formed.
  destruct c; cbn [run_call fst].
  - rewrite length_bullets_InitGame. split; [exact Hb|].
    apply InitGame_all_active, He.
  - split; assumption.
  - rewrite length_bullets_FireBullet, enemies_FireBullet. now split.
  - rewrite length_bullets_UpdateBullets, enemies_UpdateBullets. now split.
  - rewrite bullets_UpdateEnemies. split; [exact Hb|].
    unfold UpdateEnemies.
    apply (for_up_inv _ (fun g => length (enemies g) = MAX_ENEMIES)); [exact He|].
    intros k g Hg. rewrite UpdateEnemies_body_slot. unfold upd_enemy, set_enemies.
    cbn [enemies]. now rewrite length_alter.
  - rewrite length_bullets_CheckCollisions. split; [exact Hb|].
    unfold CheckCollisions. generalize MAX_BULLETS. intros nb.
    assert (H1 : length (enemies (fst (for_up bullet_body nb 0 (game, r)))) = MAX_ENEMIES).
    { apply (for_up_inv bullet_body
               (fun s => length (enemies (fst s)) = MAX_ENEMIES)); [exact He|].
      intros k s Hs. unfold bullet_body.
      destruct (bullets (fst s) !! k) as [b|]; [|exact Hs].
      destruct (active b); [|exact Hs].
      apply (for_up_inv (enemy_body k)
               (fun s' => length (enemies (fst s')) = MAX_ENEMIES)); [exact Hs|].
      intros j [g r0] Hg. unfold enemy_body. cbn [fst] in *.
      destruct (hit_test k j g) eqn:Hh; [|exact Hg].
      destruct (hit_test_enemy _ _ _ Hh) as (e & Hje & _).
      rewrite (on_hit_spec _ _ _ _ _ Hje). cbn [fst enemies].
      now rewrite length_insert. }
    revert H1. generalize (for_up bullet_body nb 0 (game, r)).
    intros [g1 r1] H1. cbn [fst] in *. rewrite <- H1.
    apply (for_up_inv _ (fun g => length (enemies g) = length (enemies g1)));
      [reflexivity|].
    intros k g Hg. now rewrite enemies_player_body.
Qed.

(** X3.  From a state with 20 bullet slots and 10 enemy slots, every call
    and every iteration of the frame loop keeps both sizes. *)
Theorem array_sizes_are_kept (stack : GameState) (r : Rand) :
  well_formed stack ->
  (forall cs, well_formed (fst (run_calls cs (InitGame stack r)))) /\
  (forall inputs, well_formed (fst (main stack r inputs))).
Proof.
  intros Hwf.
  assert (H0 : well_formed (fst (InitGame stack r))).
  { exact (run_call_well_formed idle (stack, r) CallInitGame Hwf). }
  assert (Hf : forall inp st, well_formed (fst st) -> well_formed (fst (frame inp st))).
  { intros inp st H. rewrite frame_runs_calls.
    generalize (frame_calls inp st). intros cs. revert st H.
    induction cs as [|c cs IH]; intros st H; [exact H|].
    apply IH. now apply run_call_well_formed. }
  split.
  - intros cs. revert H0. generalize (InitGame stack r). unfold run_calls.
    induction cs as [|[inp c] cs IH]; intros st H; [exact H|].
    apply IH. now apply run_call_well_formed.
  - intros inputs. unfold main. revert H0. generalize (InitGame stack r).
    induction inputs as [|inp rest IH]; intros st H; cbn [main_loop]; [exact H|].
    destruct (WindowShouldClose inp); [exact H|].
    destruct (IsKeyPressed inp KEY_ESCAPE); [now apply Hf|].
    apply IH. now apply Hf.
Qed.

Lemma gameOver_FireBullet inp game : gameOver (FireBullet inp game) = gameOver game.
Proof.
  unfold FireBullet. generalize (direction_to (GetMousePosition inp)
                                   (position (player game))).
  intros d. generalize 0%nat. generalize MAX_BULLETS.
  intros n. induction n as [|n IH]; intros i; cbn [FireBullet_scan]; [reflexivity|].
  destruct (bullets game !! i) as [b|]; [|apply IH].
  destruct (active b); cbn [negb]; [apply IH | reflexivity].
Qed.

(** X6.  [FireBullet] changes nothing but the bullets, keeps their number,
    and leaves every active bullet exactly as it was. *)
Theorem FireBullet_spares_bullets_in_flight (inp : Input) (game : GameState) :
  player (FireBullet inp game) = player game /\
  enemies (FireBullet inp game) = enemies game /\
  score (FireBullet inp game) = score game /\
  gameOver (FireBullet inp game) = gameOver game /\
  length (bullets (FireBullet inp game)) = length (bullets game) /\
  (forall i b, bullets game !! i = Some b -> active b = true ->
               bullets (FireBullet inp game) !! i = Some b).
Proof.
  split; [apply player_FireBullet|]. split; [apply enemies_FireBullet|].
  split; [apply score_FireBullet|]. split; [apply gameOver_FireBullet|].
  split; [apply length_bullets_FireBullet|].
  intros i b Hb Ha. now apply FireBullet_scan_keeps_active.
Qed.

Lemma gameOver_player_pass n i g :
  gameOver g = true -> gameOver (for_up player_body n i g) = true.
Proof.
  intros H. apply (for_up_inv player_body (fun s => gameOver s = true)); [exact H|].
  intros k s Hs. unfold player_body. destruct (enemies s !! k) as [e|]; [|exact Hs].
  now destruct (_ && _).
Qed.

Lemma gameOver_CheckCollisions game r :
  gameOver game = true -> gameOver (fst (CheckCollisions game r)) = true.
Proof.
  intros H. unfold CheckCollisions. generalize MAX_BULLETS, MAX_ENEMIES.
  intros nb ne.
  pose proof (bullet_pass_keeps_gameOver nb 0 (game, r)) as Hgo.
  revert Hgo. generalize (for_up bullet_body nb 0 (game, r)).
  intros [g1 r1] Hgo. cbn [fst] in *.
  apply gameOver_player_pass. congruence.
Qed.

(** * Game over, random draws, spent bullets *)

Lemma gameOver_UpdateBullets game dt :
  gameOver (UpdateBullets game dt) = gameOver game.
Proof.
  unfold UpdateBullets.
  apply (for_up_inv _ (fun g => gameOver g = gameOver game)); [reflexivity|].
  intros k g Hg. now rewrite UpdateBullets_body_slot.
Qed.

Lemma gameOver_UpdateEnemies game dt :
  gameOver (UpdateEnemies game dt) = gameOver game.
Proof.
  unfold UpdateEnemies.
  apply (for_up_inv _ (fun g => gameOver g = gameOver game)); [reflexivity|].
  intros k g Hg. now rewrite UpdateEnemies_body_slot.
Qed.

(** X7.  No call other than [InitGame] clears the game-over flag: once set,
    it stays set through any sequence of gameplay calls. *)
Theorem game_over_is_sticky (cs : list (Input * Call)) (st : GameState * Rand) :
  Forall is_gameplay_call cs ->
  gameOver (fst st) = true ->
  gameOver (fst (run_calls cs st)) = true.
Proof.
  intros Hcs. revert st. unfold run_calls.
  induction Hcs as [|[inp c] cs Hc Hcs IH]; intros [game r] H; [exact H|].
  cbn [foldl fst snd] in *. apply IH. unfold is_gameplay_call in Hc. cbn [snd] in Hc.
  destruct c; try discriminate; cbn [run_call fst].
  - exact H.
  - now rewrite gameOver_FireBullet.
  - now rewrite gameOver_UpdateBullets.
  - now rewrite gameOver_UpdateEnemies.
  - now apply gameOver_CheckCollisions.
Qed.

Lemma enemy_loop_draws i n : forall j0 st k,
  snd (for_up (enemy_body i) n j0 st) k
  = snd st (2 * length (enemy_hits i n j0 st) + k)%nat.
Proof.
  induction n as [|n IH]; intros j0 st k; [reflexivity|].
  rewrite for_up_S. cbn [enemy_hits]. unfold enemy_body at 2.
  destruct (hit_test i j0 (fst st)) eqn:Hh; [|apply IH].
  destruct st as [game r]. cbn [fst] in Hh.
  destruct (hit_test_enemy _ _ _ Hh) as (e & He & _).
  rewrite IH, (on_hit_spec _ _ _ _ _ He). cbn [snd length]. f_equal. lia.
Qed.

Lemma bullet_body_draws i st k :
  snd (bullet_body i st) k = snd st (2 * length (bullet_hits i st) + k)%nat.
Proof.
  unfold bullet_body, bullet_hits.
  destruct (bullets (fst st) !! i) as [b|]; [|reflexivity].
  destruct (active b); [|reflexivity]. apply enemy_loop_draws.
Qed.

Lemma collision_loop_draws n : forall i st k,
  snd (for_up bullet_body n i st) k
  = snd st (2 * length (collision_hits n i st) + k)%nat.
Proof.
  induction n as [|n IH]; intros i st k; [reflexivity|].
  rewrite for_up_S. cbn [collision_hits].
  rewrite IH, bullet_body_draws, length_app. f_equal. lia.
Qed.

(** X8.  [CheckCollisions] consumes exactly two raw random draws per hit,
    and none otherwise. *)
Theorem CheckCollisions_draws_two_per_hit (game : GameState) (r : Rand) (k : nat) :
  snd (CheckCollisions game r) k
  = r (2 * length (CheckCollisions_hits game r) + k)%nat.
Proof.
  unfold CheckCollisions, CheckCollisions_hits.
  generalize MAX_BULLETS, MAX_ENEMIES. intros nb ne.
  pose proof (collision_loop_draws nb 0 (game, r) k) as H.
  revert H. generalize (for_up bullet_body nb 0 (game, r)).
  intros [g1 r1] H. exact H.
Qed.

Lemma spent_orb h1 h2 b : spent h2 (spent h1 b) = spent (h1 || h2) b.
Proof. now destruct h1, h2. Qed.

Lemma enemy_loop_bullets i n : forall j0 st k,
  bullets (fst (for_up (enemy_body i) n j0 st)) !! k
  = spent (has_hit k (enemy_hits i n j0 st)) <$> bullets (fst st) !! k.
Proof.
  induction n as [|n IH]; intros j0 st k.
  - unfold for_up. cbn. now destruct (bullets (fst st) !! k).
  - rewrite for_up_S. cbn [enemy_hits]. unfold enemy_body at 2.
    destruct (hit_test i j0 (fst st)) eqn:Hh; [|apply IH].
    destruct st as [game r]. cbn [fst] in *.
    destruct (hit_test_enemy _ _ _ Hh) as (e & He & _).
    rewrite IH, (on_hit_spec _ _ _ _ _ He). cbn [fst bullets].
    unfold has_hit. cbn [existsb fst].
    destruct (decide (k = i)) as [->|Hne].
    + rewrite list_lookup_alter_eq, Nat.eqb_refl.
      destruct (bullets game !! i) as [b|]; [|reflexivity]. cbn.
      f_equal. now destruct (existsb _ _).
    + rewrite list_lookup_alter_ne by congruence.
      destruct (Nat.eqb_spec i k); [congruence|]. reflexivity.
Qed.

Lemma bullet_body_bullets i st k :
  bullets (fst (bullet_body i st)) !! k
  = spent (has_hit k (bullet_hits i st)) <$> bullets (fst st) !! k.
Proof.
  unfold bullet_body, bullet_hits.
  destruct (bullets (fst st) !! i) as [b|];
    [|cbn; now destruct (bullets (fst st) !! k)].
  destruct (active b); [|cbn; now destruct (bullets (fst st) !! k)].
  apply enemy_loop_bullets.
Qed.

Lemma collision_loop_bullets n : forall i st k,
  bullets (fst (for_up bullet_body n i st)) !! k
  = spent (has_hit k (collision_hits n i st)) <$> bullets (fst st) !! k.
Proof.
  induction n as [|n IH]; intros i st k.
  - unfold for_up. cbn. now destruct (bullets (fst st) !! k).
  - rewrite for_up_S. cbn [collision_hits]. rewrite IH, bullet_body_bullets.
    unfold has_hit. rewrite existsb_app.
    destruct (bullets (fst st) !! k) as [b|]; [|reflexivity]. cbn.
    now rewrite spent_orb.
Qed.

(** X9.  After [CheckCollisions] a bullet slot is its old content,
    deactivated exactly when the bullet hit an enemy in this call: positions,
    velocities, radii and colours of bullets are kept, and no bullet is
    activated. *)
Theorem CheckCollisions_spends_hitting_bullets (game : GameState) (r : Rand)
    (k : nat) :
  bullets (fst (CheckCollisions game r)) !! k
  = spent (has_hit k (CheckCollisions_hits game r)) <$> bullets game !! k.
Proof.
  unfold CheckCollisions, CheckCollisions_hits.
  generalize MAX_BULLETS, MAX_ENEMIES. intros nb ne.
  pose proof (collision_loop_bullets nb 0 (game, r) k) as H.
  revert H. generalize (for_up bullet_body nb 0 (game, r)).
  intros [g1 r1] H. cbn [fst] in *. rewrite <- H.
  apply (for_up_inv _ (fun g => bullets g !! k = bullets g1 !! k)); [reflexivity|].
  intros j g Hg. unfold player_body. destruct (enemies g !! j) as [e|]; [|exact Hg].
  now destruct (_ && _).
Qed.

(** * Movement keys and an enemy on the player *)

(** X10.  The movement vector is (right - left, down - up) with each
    direction 1 when one of its two keys is held and 0 otherwise: the two
    keys of a direction do not add up, and opposite directions cancel to
    +0. *)
Theorem read_movement_axes (inp : Input) :
  read_movement inp
  = mkVector2 (of_int (Z.b2z (held_right inp) - Z.b2z (held_left inp)))
              (of_int (Z.b2z (held_down inp) - Z.b2z (held_up inp))).
Proof.
  unfold read_movement, held_up, held_down, held_left, held_right.
  destruct (IsKeyDown inp KEY_W || IsKeyDown inp KEY_UP),
           (IsKeyDown inp KEY_S || IsKeyDown inp KEY_DOWN),
           (IsKeyDown inp KEY_A || IsKeyDown inp KEY_LEFT),
           (IsKeyDown inp KEY_D || IsKeyDown inp KEY_RIGHT);
    vm_compute; reflexivity.
Qed.

Lemma set_position_id p : set_position (position p) p = p.
Proof. now destruct p. Qed.

Lemma set_player_id g : set_player (player g) g = g.
Proof. now destruct g. Qed.

Lemma keep_on_screen_inside p :
  in_clamped_field p -> keep_on_screen (of_int 20) p = p.
Proof.
  intros (X1 & X2 & Y1 & Y2). unfold keep_on_screen.
  change (fsub (of_int SCREEN_WIDTH) (of_int 20)) with (of_int 780).
  change (fsub (of_int SCREEN_HEIGHT) (of_int 20)) with (of_int 580).
  rewrite (fle_flt_false _ _ X1). rewrite (fle_flt_false _ _ X2).
  rewrite (fle_flt_false _ _ Y1). rewrite (fle_flt_false _ _ Y2).
  reflexivity.
Qed.

(** With no direction held the movement vector is zero. *)
Lemma read_movement_idle (inp : Input) :
  no_direction_held inp -> read_movement inp = mkVector2 (of_int 0) (of_int 0).
Proof.
  intros (Hu & Hd & Hl & Hri). unfold read_movement.
  unfold held_up, held_down, held_left, held_right in *.
  now rewrite Hu, Hd, Hl, Hri.
Qed.

(** X11.  With no movement key held and a finite frame time, [UpdatePlayer]
    returns the state unchanged when the player is in the clamped field. *)
Theorem idle_player_stays (inp : Input) (game : GameState) (dt : float) :
  in_clamped_field (position (player game)) ->
  radius (player game) = of_int 20 ->
  no_direction_held inp -> is_finite dt = true ->
  UpdatePlayer inp game dt = game.
Proof.
  intros Hf Hr Hidle Hdt.
  destruct (in_clamped_field_shape _ Hf) as ((mx & ex & Hx) & (my & ey & Hy) & _).
  destruct (fmul_zero_l dt Hdt) as [sz Hz].
  unfold UpdatePlayer, upd_player.
  cbn [player set_player position set_position radius].
  rewrite (read_movement_idle inp Hidle).
  change (normalize_diagonal (mkVector2 (of_int 0) (of_int 0)))
    with (mkVector2 (S754_zero false) (S754_zero false)).
  unfold move_player, set_x, set_y. cbn [x y].
  change (fmul (S754_zero false) PLAYER_SPEED) with (S754_zero false).
  rewrite Hz, Hx, Hy.
  change (fadd (S754_finite false mx ex) (S754_zero sz)) with (S754_finite false mx ex).
  change (fadd (S754_finite false my ey) (S754_zero sz)) with (S754_finite false my ey).
  rewrite <- Hx, <- Hy, Hr.
  replace (mkVector2 (x (position (player game))) (y (position (player game))))
    with (position (player game)) by (now destruct (position (player game))).
  rewrite (keep_on_screen_inside _ Hf).
  unfold set_position, set_player.
  destruct game as [[pp pv pr pa pc] bs es sc go]. reflexivity.
Qed.

Lemma distance_self p :
  is_finite (x p) = true -> is_finite (y p) = true ->
  distance p p = S754_zero false.
Proof.
  intros Hx Hy. unfold distance. rewrite (fsub_diag _ Hx), (fsub_diag _ Hy).
  reflexivity.
Qed.

Lemma chase_on_target p dt e :
  in_clamped_field p -> is_finite dt = true -> position e = p ->
  chase p dt e = e.
Proof.
  intros Hf Hdt He.
  destruct (in_clamped_field_shape _ Hf) as ((mx & ex & Hx) & (my & ey & Hy) & _).
  destruct (fmul_zero_l dt Hdt) as [sz Hz].
  unfold chase. destruct (active e); [|reflexivity].
  rewrite He, direction_to_self by (rewrite ?Hx, ?Hy; reflexivity).
  cbn [x y]. change (fmul (S754_zero false) ENEMY_SPEED) with (S754_zero false).
  rewrite Hz, Hx, Hy.
  change (fadd (S754_finite false mx ex) (S754_zero sz)) with (S754_finite false mx ex).
  change (fadd (S754_finite false my ey) (S754_zero sz)) with (S754_finite false my ey).
  rewrite <- Hx, <- Hy, <- He.
  replace (mkVector2 (x (position e)) (y (position e))) with (position e)
    by (now destruct (position e)).
  apply set_position_id.
Qed.

Lemma bullet_pass_idle n i game r :
  Forall (fun b => active b = false) (bullets game) ->
  for_up bullet_body n i (game, r) = (game, r).
Proof.
  intros Hall. apply (for_up_inv bullet_body (fun s => s = (game, r))); [reflexivity|].
  intros k s ->. unfold bullet_body. cbn [fst].
  destruct (bullets game !! k) as [b|] eqn:Hb; [|reflexivity].
  now rewrite (proj1 (Forall_lookup _ _) Hall k b Hb).
Qed.

Lemma player_pass_detects n j game e :
  (j < n)%nat -> enemies game !! j = Some e -> active e = true ->
  flt (distance (position (player game)) (position e))
      (fadd (radius (player game)) (radius e)) = true ->
  gameOver (for_up player_body n 0 game) = true.
Proof.
  intros Hj He Ha Ht.
  pose proof (for_up_ind player_body
    (fun k s => enemies s = enemies game /\ player s = player game /\
                ((j < k)%nat -> gameOver s = true)) n 0 game) as H.
  cbn [Nat.add] in H. apply H; [repeat split; lia | | exact Hj]. clear H.
  intros k s _ (Hse & Hsp & Hs). unfold player_body. rewrite Hse, Hsp.
  destruct (decide (k = j)) as [->|Hne].
  - rewrite He, Ha, Ht. cbn. auto.
  - destruct (enemies game !! k) as [e'|] eqn:Hk.
    + destruct (_ && _); cbn; repeat split; auto; intros; apply Hs; lia.
    + repeat split; auto. intros. apply Hs. lia.
Qed.

(** X12.  An active enemy exactly on the player is not moved by
    [UpdateEnemies] (the zero direction is not normalised), and
    [CheckCollisions] then sets the game-over flag when no bullet is
    active. *)
Theorem enemy_on_player_is_fatal (game : GameState) (r : Rand) (dt : float)
    (j : nat) (e : GameObject) :
  in_clamped_field (position (player game)) ->
  radius (player game) = of_int 20 -> radius e = of_int 15 ->
  (length (enemies game) <= MAX_ENEMIES)%nat ->
  enemies game !! j = Some e -> active e = true ->
  position e = position (player game) ->
  is_finite dt = true ->
  enemies (UpdateEnemies game dt) !! j = Some e /\
  (Forall (fun b => active b = false) (bullets game) ->
   gameOver (fst (CheckCollisions game r)) = true).
Proof.
  intros Hf Hrp Hre Hlen He Ha Hpos Hdt. split.
  - rewrite UpdateEnemies_map by exact Hlen. cbn [enemies set_enemies].
    rewrite list_lookup_fmap, He. cbn. f_equal. now apply chase_on_target.
  - intros Hall. unfold CheckCollisions.
    assert (Hj : (j < MAX_ENEMIES)%nat) by (apply lookup_lt_Some in He; lia).
    revert Hj. generalize MAX_BULLETS, MAX_ENEMIES. intros nb ne Hj.
    rewrite (bullet_pass_idle nb 0 game r Hall). cbn [fst].
    apply (player_pass_detects ne j game e Hj He Ha).
    destruct (in_clamped_field_shape _ Hf) as ((mx & ex & Hx) & (my & ey & Hy) & _).
    rewrite Hpos, distance_self, Hrp, Hre by (rewrite ?Hx, ?Hy; reflexivity).
    reflexivity.
Qed.

(** * InitGame *)

Lemma bullets_InitGame stack r :
  (length (bullets stack) <= MAX_BULLETS)%nat ->
  bullets (fst (InitGame stack r)) = map reset_bullet (bullets stack).
Proof.
  unfold InitGame. generalize MAX_BULLETS, MAX_ENEMIES. intros nb ne Hlen.
  set (g0 := upd_player (set_color BLUE) _).
  assert (H1 : bullets (for_up (fun i game =>
                 upd_bullet i (set_color YELLOW)
                   (upd_bullet i (set_radius (of_int 5))
                      (upd_bullet i (set_active false) game))) nb 0 g0)
               = map reset_bullet (bullets stack)).
  { rewrite (for_up_ext _ (fun i g => upd_bullet i reset_bullet g) (fun _ => True));
      [|exact I|].
    - rewrite upd_bullet_loop. cbn [bullets set_bullets].
      now apply alter_loop_map.
    - intros k s _. split; [|exact I]. unfold upd_bullet, set_bullets.
      cbn [bullets player enemies score gameOver]. f_equal.
      rewrite !list_alter_alter_eq. apply list_alter_ext; reflexivity. }
  revert H1. generalize (for_up (fun i game =>
                 upd_bullet i (set_color YELLOW)
                   (upd_bullet i (set_radius (of_int 5))
                      (upd_bullet i (set_active false) game))) nb 0 g0).
  intros g1 H1.
  match goal with |- context [for_up ?b ne 0%nat (g1, r)] =>
    pose proof (for_up_inv b (fun s => bullets (fst s) = bullets g1)
                  ne 0 (g1, r) eq_refl) as H2;
    destruct (for_up b ne 0%nat (g1, r)) as [g2 r2]
  end.
  cbn [fst bullets set_gameOver set_score] in *. rewrite H2; [exact H1|].
  intros k [g r0] Hg.
  destruct (GetRandomValue 0 SCREEN_WIDTH r0) as [rx r1].
  destruct (GetRandomValue 0 SCREEN_HEIGHT r1) as [ry r3]. exact Hg.
Qed.

Lemma enemy_loop_InitGame (g1 : GameState) (r : Rand) (n : nat) :
  let st := for_up (fun i '(game, r) =>
    let '(rx, r) := GetRandomValue 0 SCREEN_WIDTH r in
    let '(ry, r) := GetRandomValue 0 SCREEN_HEIGHT r in
    let game := upd_enemy i (set_position (mkVector2 (of_int rx) (of_int ry))) game in
    let game := upd_enemy i (set_velocity (mkVector2 (of_int 0) (of_int 0))) game in
    let game := upd_enemy i (set_radius (of_int 15)) game in
    let game := upd_enemy i (set_active true) game in
    (upd_enemy i (set_color RED) game, r)) n 0 (g1, r) in
  length (enemies (fst st)) = length (enemies g1) /\
  (forall j, (j < n)%nat -> (j < length (enemies g1))%nat ->
     enemies (fst st) !! j
     = Some (spawned_enemy (r (2 * j)%nat) (r (2 * j + 1)%nat))) /\
  (forall k, snd st k = r (2 * n + k)%nat).
Proof.
  cbn zeta.
  match goal with |- context [for_up ?b n 0%nat (g1, r)] =>
    pose proof (for_up_ind b
      (fun m s => length (enemies (fst s)) = length (enemies g1) /\
         (forall j, (j < m)%nat -> (j < length (enemies g1))%nat ->
            enemies (fst s) !! j
            = Some (spawned_enemy (r (2 * j)%nat) (r (2 * j + 1)%nat))) /\
         (forall k, snd s k = r (2 * m + k)%nat)) n 0 (g1, r)) as H end.
  cbn [Nat.add] in H. apply H; clear H.
  - split; [reflexivity|]. split; [intros j Hj; lia | intros k; reflexivity].
  - intros m [g r0] _ (Hl & He & Hr). cbn [fst snd] in *.
    rewrite !GetRandomValue_from_0 by (unfold SCREEN_WIDTH, SCREEN_HEIGHT; lia).
    cbn [fst snd]. unfold upd_enemy, set_enemies. cbn [enemies].
    rewrite !list_alter_alter_eq. split; [now rewrite length_alter|]. split.
    + intros j Hj Hjl. destruct (decide (j = m)) as [->|Hne].
      * rewrite list_lookup_alter_eq.
        destruct (enemies g !! m) as [e|] eqn:Em.
        -- cbn. f_equal. unfold spawned_enemy, compose, set_color, set_active,
             set_radius, set_velocity, set_position.
           cbn [position velocity radius active color].
           rewrite !Hr. unfold SCREEN_WIDTH, SCREEN_HEIGHT.
           change (800 + 1) with 801. change (600 + 1) with 601.
           replace (2 * m + 0)%nat with (2 * m)%nat by lia. reflexivity.
        -- apply lookup_ge_None in Em. lia.
      * rewrite list_lookup_alter_ne by congruence. apply He; lia.
    + intros k. rewrite Hr. f_equal. lia.
Qed.

(** X1.  [InitGame] puts the player at (400,300) with zero velocity, radius
    20, active and blue, clears the score and the game-over flag, and makes
    every bullet inactive, yellow and of radius 5; it never writes a bullet's
    position or velocity, which stay what the memory held. *)
Theorem InitGame_resets_everything_but_bullet_motion (stack : GameState) (r : Rand) :
  well_formed stack ->
  player (fst (InitGame stack r)) = initial_player /\
  bullets (fst (InitGame stack r)) = map reset_bullet (bullets stack) /\
  score (fst (InitGame stack r)) = 0 /\
  gameOver (fst (InitGame stack r)) = false.
Proof.
  intros [Hb He]. split; [apply player_InitGame|].
  split; [apply bullets_InitGame; lia|].
  split; [apply score_InitGame | apply gameOver_InitGame].
Qed.

(** X2.  [InitGame] overwrites every field of the ten enemies: enemy [j] is
    active, red, of radius 15, at rest at the whole point
    ([r (2j) mod 801], [r (2j+1) mod 601]); it consumes exactly twenty raw
    draws. *)
Theorem InitGame_spawns_enemies_from_twenty_draws (stack : GameState) (r : Rand) :
  well_formed stack ->
  enemies (fst (InitGame stack r))
  = map (fun j => spawned_enemy (r (2 * j)%nat) (r (2 * j + 1)%nat))
        (seq 0 MAX_ENEMIES) /\
  (forall k, snd (InitGame stack r) k = r (2 * MAX_ENEMIES + k)%nat).
Proof.
  intros [Hb He]. unfold InitGame. revert He.
  generalize MAX_ENEMIES. intros ne He.
  set (g0 := upd_player (set_color BLUE) _).
  set (g1 := for_up _ MAX_BULLETS 0 g0).
  assert (Hg1 : length (enemies g1) = ne).
  { subst g1. apply (for_up_inv _ (fun g => length (enemies g) = ne));
      [exact He | intros k g Hg; exact Hg]. }
  pose proof (enemy_loop_InitGame g1 r ne) as H. cbn zeta in H.
  revert H.
  match goal with |- context [for_up ?b ne 0%nat (g1, r)] =>
    generalize (for_up b ne 0%nat (g1, r)) end.
  intros [g2 r2] (Hl & Hen & Hr). cbn [fst snd enemies set_gameOver set_score] in *.
  split; [|exact Hr].
  apply list_eq. intros j. rewrite list_lookup_fmap.
  destruct (decide (j < ne)%nat) as [Hj|Hj].
  - rewrite Hen by lia. rewrite lookup_seq_lt by lia. reflexivity.
  - rewrite lookup_seq_ge by lia. apply lookup_ge_None. lia.
Qed.

(** * DrawGame *)

Lemma draw_active_from (objs : list GameObject) n : forall i0 out,
  for_up (fun i out =>
    match objs !! i with
    | Some o =>
      if active o
      then out ++ [DrawCircleV (position o) (radius o) (color o)]
      else out
    | None => out
    end) n i0 out
  = out ++ map circle_of (List.filter active (take n (drop i0 objs))).
Proof.
  induction n as [|n IH]; intros i0 out.
  - unfold for_up. cbn. now rewrite app_nil_r.
  - rewrite for_up_S, IH.
    destruct (objs !! i0) as [o|] eqn:Ho.
    + rewrite (drop_S _ _ _ Ho). cbn [take List.filter].
      destruct (active o); cbn [map].
      * now rewrite <- app_assoc.
      * reflexivity.
    + apply lookup_ge_None in Ho.
      rewrite !drop_ge by lia. now rewrite take_nil.
Qed.

Lemma draw_active_filter (objs : list GameObject) n out :
  (length objs <= n)%nat ->
  draw_active objs n out = out ++ map circle_of (List.filter active objs).
Proof.
  intros Hn. unfold draw_active. rewrite draw_active_from, drop_0.
  now rewrite take_ge by lia.
Qed.

(** X13.  The circles [DrawGame] draws are, in order, the player, the active
    bullets by index and the active enemies by index; on the game-over
    screen it draws no circle. *)
Theorem DrawGame_draws_the_active_objects (game : GameState) :
  (length (bullets game) <= MAX_BULLETS)%nat ->
  (length (enemies game) <= MAX_ENEMIES)%nat ->
  List.filter is_circle (DrawGame game)
  = if gameOver game then []
    else circle_of (player game)
         :: map circle_of (List.filter active (bullets game))
         ++ map circle_of (List.filter active (enemies game)).
Proof.
  intros Hb He. unfold DrawGame. destruct (gameOver game); cbn [negb].
  - reflexivity.
  - revert Hb He. generalize MAX_BULLETS, MAX_ENEMIES. intros nb ne Hb He.
    rewrite (draw_active_filter (enemies game) ne) by exact He.
    rewrite (draw_active_filter (bullets game) nb) by exact Hb.
    assert (C : forall l, List.filter is_circle (map circle_of l) = map circle_of l).
    { induction l as [|o l IH]; [reflexivity|]. cbn. now rewrite IH. }
    rewrite !List.filter_app, !C. cbn. now rewrite !app_nil_r.
Qed.

(** X14.  Every frame [DrawGame] draws starts with [BeginDrawing] and
    [ClearBackground(BLACK)] and ends with [EndDrawing], with neither
    [BeginDrawing] nor [EndDrawing] in between. *)
Theorem DrawGame_brackets_the_frame (game : GameState) :
  exists middle,
    DrawGame game = [BeginDrawing; ClearBackground BLACK] ++ middle ++ [EndDrawing] /\
    Forall (fun c => c <> BeginDrawing /\ c <> EndDrawing) middle.
Proof.
  unfold DrawGame. destruct (gameOver game); cbn [negb].
  - cbn [app].
    match goal with |- context [?a :: ?b :: ?c :: [EndDrawing]] =>
      exists [a; b; c] end.
    split; [reflexivity|]. repeat constructor; discriminate.
  - generalize MAX_BULLETS, MAX_ENEMIES. intros nb ne.
    unfold draw_active. rewrite !draw_active_from.
    set (bs := map circle_of (List.filter active (take nb (drop 0 (bullets game))))).
    set (es := map circle_of (List.filter active (take ne (drop 0 (enemies game))))).
    match goal with |- context [(_ ++ es) ++ ?texts] =>
      exists (circle_of (player game) :: bs ++ es ++ texts) end.
    split.
    + cbn [app]. rewrite <- !app_assoc. reflexivity.
    + apply Forall_cons. split; [split; discriminate|].
      apply Forall_app. split; [|apply Forall_app; split].
      * apply Forall_forall. intros c Hc. apply list_elem_of_In in Hc.
        apply in_map_iff in Hc as (o & <- & _). split; discriminate.
      * apply Forall_forall. intros c Hc. apply list_elem_of_In in Hc.
        apply in_map_iff in Hc as (o & <- & _). split; discriminate.
      * repeat constructor; discriminate.
Qed.

(** * The program at concrete inputs *)

(** C1 (the code breaks it).  The claim: a bullet deactivated by a hit is not
    tested against the later enemies, so at most one enemy is consumed and at
    most 10 points are awarded per bullet and call.  The code at a bullet
    that overlaps two enemies: the inner loop over the enemies has no [break]
    and does not read the bullet's flag again, so bullet 0 hits enemy 0 and
    then enemy 1; the score goes from 0 to 20 and the bullet ends inactive. *)
Theorem bullet_pierces_two_enemies :
  CheckCollisions_hits two_enemies_one_bullet sample_rand = [(0, 0); (0, 1)]%nat /\
  score two_enemies_one_bullet = 0 /\
  score (fst (CheckCollisions two_enemies_one_bullet sample_rand)) = 20 /\
  (active <$> bullets (fst (CheckCollisions two_enemies_one_bullet sample_rand)) !! 0%nat)
    = Some false.
Proof. vm_compute. repeat split. Qed.

(** C2 at a run: a shot and a collision pass after [InitGame] on zeroed
    memory. *)
Lemma enemies_always_active_witness :
  all_enemies_active
    (fst (run_calls [(click_on_player, CallFireBullet);
                     (click_on_player, CallCheckCollisions)]
                    (InitGame zero_stack sample_rand))).
Proof.
  apply (proj1 (enemies_always_active zero_stack sample_rand eq_refl)).
Defined.

(** C3 at the fresh state with S and D held for a sixtieth of a second. *)
Lemma player_stays_on_screen_witness :
  on_screen (player (UpdatePlayer hold_S_D fresh_game sixtieth)).
Proof.
  apply (proj1 (player_stays_on_screen hold_S_D fresh_game sixtieth));
    reflexivity.
Defined.

(** C4 at a full pool, and at the fresh state, whose first free slot is 0. *)
Lemma FireBullet_pool_witness :
  FireBullet click_on_player full_pool = full_pool /\
  FireBullet click_on_player fresh_game
  = set_bullets (<[0%nat := fired_bullet click_on_player fresh_game
                              (mkGameObject (mkVector2 (of_int 0) (of_int 0))
                                 (mkVector2 (of_int 0) (of_int 0)) (of_int 5)
                                 false YELLOW)]> (bullets fresh_game)) fresh_game.
Proof.
  split.
  - apply (proj1 (FireBullet_pool click_on_player full_pool)).
    vm_compute. repeat constructor.
  - apply (proj2 (FireBullet_pool click_on_player fresh_game) 0%nat).
    + vm_compute. lia.
    + reflexivity.
    + reflexivity.
    + intros k b' Hk. lia.
Defined.

(** C5 at the fresh state with the click on the player. *)
Lemma zero_velocity_bullet_stays_witness :
  bullets (foldl UpdateBullets (FireBullet click_on_player fresh_game)
                 [sixtieth; sixtieth; sixtieth]) !! 0%nat
  = Some (resting_bullet (mkVector2 (of_int 400) (of_int 300))
            (mkGameObject (mkVector2 (of_int 0) (of_int 0))
               (mkVector2 (of_int 0) (of_int 0)) (of_int 5) false YELLOW)).
Proof.
  refine (proj1 (proj2 (zero_velocity_bullet_stays click_on_player fresh_game 0%nat _
                          _ _ _ _ _ _)) _ _).
  - vm_compute. repeat split.
  - reflexivity.
  - vm_compute. lia.
  - reflexivity.
  - reflexivity.
  - intros k b' Hk. lia.
  - repeat constructor.
Defined.

(** C6 at the state whose bullet 0 overlaps enemy 0. *)
Lemma hit_enemy_respawns_on_edge_witness :
  exists e,
    enemies (fst (CheckCollisions two_enemies_one_bullet sample_rand)) !! 1%nat
      = Some e /\ active e = true /\ in_edge_band (position e).
Proof.
  apply (proj2 (hit_enemy_respawns_on_edge two_enemies_one_bullet sample_rand) 0%nat).
  vm_compute. right. left. reflexivity.
Defined.

(** C7 as stated fails: at a score of 2147483640 one more hit overflows the
    32-bit [int] and the score after [CheckCollisions] is smaller than
    before. *)
Lemma score_wraps_at_int_max :
  score (fst (CheckCollisions score_at_limit sample_rand)) < score score_at_limit.
Proof. vm_compute. reflexivity. Qed.

(** C7 at a collision pass with two hits from score 0. *)
Lemma score_counts_kills_witness :
  score (fst (CheckCollisions two_enemies_one_bullet sample_rand))
  = score two_enemies_one_bullet
    + 10 * Z.of_nat (length (CheckCollisions_hits two_enemies_one_bullet sample_rand)).
Proof.
  apply (proj1 (proj2 (proj2 (score_counts_kills two_enemies_one_bullet sample_rand)))).
  - vm_compute. discriminate.
  - vm_compute. discriminate.
Defined.

(** C8 as stated fails: with S and D held the scaled movement vector is not
    the one the constant 0.70710678 gives. *)
Lemma diagonal_scale_is_not_0_70710678 :
  normalize_diagonal (read_movement hold_S_D)
  <> mkVector2 (fmul (x (read_movement hold_S_D)) spec_lit_0_70710678)
               (fmul (y (read_movement hold_S_D)) spec_lit_0_70710678).
Proof. vm_compute. discriminate. Qed.

(** C8 with S and D held. *)
Lemma diagonal_scale_is_0_707_witness :
  normalize_diagonal (read_movement hold_S_D)
  = mkVector2 (fmul (x (read_movement hold_S_D)) lit_0_707)
              (fmul (y (read_movement hold_S_D)) lit_0_707).
Proof.
  apply (proj1 (diagonal_scale_is_0_707 hold_S_D fresh_game sixtieth eq_refl eq_refl)).
Defined.

(** C9 at the game-over state, without and with the restart key. *)
Lemma game_over_is_terminal_witness :
  frame idle (game_over_state, sample_rand) = (game_over_state, sample_rand) /\
  gameOver (fst (frame press_R (game_over_state, sample_rand))) = false.
Proof.
  split.
  - apply (proj1 (proj2 (proj2 (game_over_is_terminal idle game_over_state
                                   sample_rand eq_refl)))). reflexivity.
  - apply (proj2 (proj2 (proj2 (game_over_is_terminal press_R game_over_state
                                   sample_rand eq_refl)))). reflexivity.
Defined.

(** C10 at the state with two hits in one collision pass. *)
Lemma respawned_enemy_spares_player_witness :
  let pass1 := fst (for_up bullet_body MAX_BULLETS 0
                      (two_enemies_one_bullet, sample_rand)) in
  player_body 1 pass1 = pass1.
Proof.
  refine (proj1 (proj2 (respawned_enemy_spares_player two_enemies_one_bullet
                          sample_rand _ _)) 0%nat 1%nat _).
  - vm_compute. repeat split.
  - vm_compute. repeat constructor.
  - vm_compute. right. left. reflexivity.
Defined.

(** X1 on zeroed memory. *)
Lemma InitGame_resets_everything_but_bullet_motion_witness :
  bullets (fst (InitGame zero_stack sample_rand))
  = map reset_bullet (bullets zero_stack).
Proof.
  apply (proj1 (proj2 (InitGame_resets_everything_but_bullet_motion
                         zero_stack sample_rand (conj eq_refl eq_refl)))).
Defined.

(** X2 on zeroed memory: the next draw after [InitGame] is the twenty-first. *)
Lemma InitGame_spawns_enemies_from_twenty_draws_witness :
  snd (InitGame zero_stack sample_rand) 0%nat = sample_rand 20%nat.
Proof.
  apply (proj2 (InitGame_spawns_enemies_from_twenty_draws
                  zero_stack sample_rand (conj eq_refl eq_refl)) 0%nat).
Defined.

(** X3 at two frames of [main]. *)
Lemma array_sizes_are_kept_witness :
  well_formed (fst (main zero_stack sample_rand [click_on_player; idle])).
Proof.
  apply (proj2 (array_sizes_are_kept zero_stack sample_rand
                  (conj eq_refl eq_refl))).
Defined.

(** X4 at a state with one bullet in flight. *)
Lemma UpdateBullets_is_map_witness :
  UpdateBullets two_enemies_one_bullet sixtieth
  = set_bullets (map (advance_bullet sixtieth) (bullets two_enemies_one_bullet))
                two_enemies_one_bullet.
Proof.
  apply (UpdateBullets_is_map two_enemies_one_bullet sixtieth).
  unfold MAX_BULLETS. simpl. lia.
Defined.

(** X5 at the fresh state. *)
Lemma UpdateEnemies_is_map_witness :
  UpdateEnemies fresh_game sixtieth
  = set_enemies (map (chase (position (player fresh_game)) sixtieth)
                     (enemies fresh_game)) fresh_game.
Proof.
  refine (proj1 (UpdateEnemies_is_map fresh_game sixtieth _)).
  unfold MAX_ENEMIES. simpl. lia.
Defined.

(** X6 at a state whose bullet 0 is in flight. *)
Lemma FireBullet_spares_bullets_in_flight_witness :
  bullets (FireBullet click_on_player two_enemies_one_bullet) !! 0%nat
  = Some (mkGameObject (mkVector2 (of_int 100) (of_int 100))
            (mkVector2 (of_int 0) (of_int 0)) (of_int 5) true YELLOW).
Proof.
  apply (proj2 (proj2 (proj2 (proj2 (proj2
           (FireBullet_spares_bullets_in_flight click_on_player
              two_enemies_one_bullet))))) 0%nat); reflexivity.
Defined.

(** X7 at the game-over state. *)
Lemma game_over_is_sticky_witness :
  gameOver (fst (run_calls [(idle, CallUpdateBullets); (idle, CallCheckCollisions)]
                           (game_over_state, sample_rand))) = true.
Proof.
  apply (game_over_is_sticky _ (game_over_state, sample_rand)).
  - repeat constructor.
  - reflexivity.
Defined.

(** X11 at the fresh state. *)
Lemma idle_player_stays_witness :
  UpdatePlayer idle fresh_game sixtieth = fresh_game.
Proof.
  apply (idle_player_stays idle fresh_game sixtieth).
  - vm_compute. repeat split.
  - reflexivity.
  - vm_compute. repeat split.
  - reflexivity.
Defined.

(** X12 at the fresh state with enemy 0 on the player. *)
Lemma enemy_on_player_is_fatal_witness :
  gameOver (fst (CheckCollisions enemy_on_player sample_rand)) = true.
Proof.
  refine (proj2 (enemy_on_player_is_fatal enemy_on_player sample_rand sixtieth
                   0%nat (default zero_object (enemies enemy_on_player !! 0%nat))
                   _ _ _ _ _ _ _ _) _).
  - vm_compute. repeat split.
  - reflexivity.
  - reflexivity.
  - unfold MAX_ENEMIES. simpl. lia.
  - reflexivity.
  - reflexivity.
  - reflexivity.
  - reflexivity.
  - vm_compute. repeat constructor.
Defined.

(** X13 at a state with one bullet in flight. *)
Lemma DrawGame_draws_the_active_objects_witness :
  List.filter is_circle (DrawGame two_enemies_one_bullet)
  = if gameOver two_enemies_one_bullet then []
    else circle_of (player two_enemies_one_bullet)
         :: map circle_of (List.filter active (bullets two_enemies_one_bullet))
         ++ map circle_of (List.filter active (enemies two_enemies_one_bullet)).
Proof.
  apply (DrawGame_draws_the_active_objects two_enemies_one_bullet).
  - unfold MAX_BULLETS. simpl. lia.
  - unfold MAX_ENEMIES. simpl. lia.
Defined.
